(** * The asynchronous logger of [log/log.go]

    A shallow embedding of the logger: severity masks, the buffer pool, the
    record renderer inside [Output], the dispatch goroutine [run], [Close]
    and the process-wide default logger, followed by the properties of the
    specification that concern them.

    Go values are represented as follows.
    - [LogLever] (a Go [int]) is a [Z]; [&] is [Z.land].
    - a Go [string] is a [string]; a [[]byte] is a [slice]: its visible
      bytes and its capacity.
    - a buffered channel is the list of the values it holds, oldest first.
    - the goroutine started by [New] is a control state [run_pc]; one
      [run_step] is one atomic piece of [run].
    - everything the logger does to its environment (writes to the handler,
      closing the handler, closing the quit channel) is recorded, in order,
      in [trace].

    The string set of [set/strset.go] and the Redis cache of
    [cache/cache.go] and [cache/redis.go] follow, the Redis server and its
    client being parameters. *)

From Stdlib Require Import ZArith List Bool Ascii String Lia Arith.
From Stdlib Require Import Strings.Byte.
From Stdlib Require Import DecimalString.
Import ListNotations.

Local Open Scope string_scope.
Local Open Scope list_scope.
Local Open Scope Z_scope.

(** ** Severity levels *)

Definition LogLever := Z.

Definition LevelInfo : LogLever := 1.
Definition LevelDebug : LogLever := Z.shiftl 1 1.
Definition LevelWarn : LogLever := Z.shiftl 1 2.
Definition LevelError : LogLever := Z.shiftl 1 3.
Definition LevelAll : LogLever :=
  Z.lor (Z.lor (Z.lor LevelInfo LevelDebug) LevelWarn) LevelError.

Definition TimeFormat : string := "2006/01/02 15:04:05".

Definition maxBufPoolSize : nat := 16.

(** Capacity of the [msg] channel, [make(chan []byte, 1024)]. *)
Definition msgCap : nat := 1024.

(** ** Terminal colour codes *)

Definition ESC : ascii := "027"%char.
Definition LF : ascii := "010"%char.

Definition NONE : string := String ESC "[m".
Definition RED : string := String ESC "[0;32;31m".
Definition GREEN : string := String ESC "[0;32;32m".
Definition YELLOW : string := String ESC "[1;33m".

(** ** Slices of bytes *)

Record slice := mkSlice { bytes : list byte; cap : nat }.

(** [make([]byte, 0, n)] *)
Definition make_bytes (n : nat) : slice := mkSlice [] n.

(** [buf[0:0]]: the length becomes zero, the capacity stays. *)
Definition reslice0 (b : slice) : slice := mkSlice [] (cap b).

Section Runtime.

(** The capacity the Go runtime picks when an append outgrows the slice:
    [growslice old needed]. *)
Variable growslice : nat -> nat -> nat.

Definition append_bytes (b : slice) (p : list byte) : slice :=
  let n := (List.length (bytes b) + List.length p)%nat in
  mkSlice (bytes b ++ p)
          (if (n <=? cap b)%nat then cap b else growslice (cap b) n).

(** [append(buf, s...)] for a string [s]. *)
Definition append_string (b : slice) (s : string) : slice :=
  append_bytes b (list_byte_of_string s).

(** [strconv.AppendInt(buf, i, 10)] *)
Definition FormatInt (i : Z) : string := NilZero.string_of_int (Z.to_int i).

Definition AppendInt (b : slice) (i : Z) : slice :=
  append_string b (FormatInt i).

End Runtime.

(** ** Colours and labels *)

(** The receiver [l] of [colorStart] and [colorStop] is not used by the
    source; the embedding keeps it as an argument of any type. *)
Definition colorStart {L : Type} (l : L) (level : LogLever) : string :=
  if level =? LevelDebug then ""
  else if level =? LevelInfo then GREEN
  else if level =? LevelWarn then YELLOW
  else if level =? LevelError then RED
  else "".

Definition colorStop {L : Type} (l : L) (level : LogLever) : string :=
  if level =? LevelDebug then ""
  else if level =? LevelInfo then NONE
  else if level =? LevelWarn then NONE
  else if level =? LevelError then NONE
  else "".

Definition levelName (level : LogLever) : string :=
  if Z.land level LevelDebug =? LevelDebug then "DEBUG"
  else if Z.land level LevelInfo =? LevelInfo then "INFO"
  else if Z.land level LevelWarn =? LevelWarn then "WARN"
  else if Z.land level LevelError =? LevelError then "ERROR"
  else "".

(** ** Call sites *)

(** The loop [for i := len(file) - 1; i > 0; i-- { if file[i] == '/' {
    file = file[i+1:]; break } }], started at index [i]. *)
Fixpoint shorten_from (file : string) (i : nat) : string :=
  match i with
  | O => file
  | S j =>
      match String.get i file with
      | Some c =>
          if Ascii.eqb c "/"%char
          then String.substring (i + 1)%nat (String.length file - (i + 1))%nat file
          else shorten_from file j
      | None => shorten_from file j
      end
  end.

Definition shorten (file : string) : string :=
  shorten_from file (String.length file - 1)%nat.

(** ** The logger and its goroutine *)

(** A channel of [struct{}] on which nothing is ever sent: it is open,
    closed, or the nil channel. *)
Inductive chan_state := ChanOpen | ChanClosed | ChanNil.

(** What the logger does to the outside, in the order it happens. *)
Inductive event :=
| HandlerWrite (p : list byte)   (* l.handler.Write(p) *)
| HandlerClose                   (* l.handler.Close() *)
| QuitClose.                     (* close(l.quit) *)

(** Where the goroutine [run] stands. *)
Inductive run_pc :=
| AtSelect                (* at the select statement *)
| Received (m : slice)    (* msg := <-l.msg done, Write not yet called *)
| Wrote (m : slice)       (* Write done, putBuf not yet called *)
| Exited.                 (* returned; the deferred wg.Done() has run *)

(** The case a select takes when both of its cases can proceed. *)
Inductive choice := PickMsg | PickQuit.

Definition scheduler := nat -> choice.

Definition sched_tl (sched : scheduler) : scheduler := fun n => sched (S n).

(** Result of a call that may panic or wait for the goroutine [run]. *)
Inductive result (A : Type) :=
| Ok (a : A)
| Panic
| Pending.   (* the call has not returned *)
Arguments Ok {A} a.
Arguments Panic {A}.
Arguments Pending {A}.

Section WithHandler.

(** Handlers: the interface is declared outside [log.go]; the logger only
    holds one and calls [Write] and [Close] on it. *)
Variable H : Type.

Variable growslice : nat -> nat -> nat.

(** The fields of the Go struct (the embedded mutex is left out: [popBuf]
    and [putBuf], which hold it from start to end, are atomic here), then
    the state of the goroutine and the trace. *)
Record Logger := mkLogger {
  level : LogLever;
  flag : Z;
  handler : H;
  quit : chan_state;
  msg : list slice;
  bufs : list slice;
  wg : nat;
  closed : bool;
  loop : run_pc;
  trace : list event
}.

Definition set_level (v : LogLever) (l : Logger) : Logger :=
  mkLogger v (flag l) (handler l) (quit l) (msg l) (bufs l) (wg l)
           (closed l) (loop l) (trace l).
Definition set_quit (v : chan_state) (l : Logger) : Logger :=
  mkLogger (level l) (flag l) (handler l) v (msg l) (bufs l) (wg l)
           (closed l) (loop l) (trace l).
Definition set_msg (v : list slice) (l : Logger) : Logger :=
  mkLogger (level l) (flag l) (handler l) (quit l) v (bufs l) (wg l)
           (closed l) (loop l) (trace l).
Definition set_bufs (v : list slice) (l : Logger) : Logger :=
  mkLogger (level l) (flag l) (handler l) (quit l) (msg l) v (wg l)
           (closed l) (loop l) (trace l).
Definition set_wg (v : nat) (l : Logger) : Logger :=
  mkLogger (level l) (flag l) (handler l) (quit l) (msg l) (bufs l) v
           (closed l) (loop l) (trace l).
Definition set_closed (v : bool) (l : Logger) : Logger :=
  mkLogger (level l) (flag l) (handler l) (quit l) (msg l) (bufs l) (wg l)
           v (loop l) (trace l).
Definition set_loop (v : run_pc) (l : Logger) : Logger :=
  mkLogger (level l) (flag l) (handler l) (quit l) (msg l) (bufs l) (wg l)
           (closed l) v (trace l).
Definition emit (e : event) (l : Logger) : Logger :=
  mkLogger (level l) (flag l) (handler l) (quit l) (msg l) (bufs l) (wg l)
           (closed l) (loop l) (trace l ++ [e]).

Definition New (h : H) : Logger :=
  {| level := LevelInfo;
     flag := 0;
     handler := h;
     quit := ChanOpen;
     closed := false;
     msg := [];
     bufs := [];
     wg := 1;
     loop := AtSelect;
     trace := [] |}.

Definition NewDefault (h : H) : Logger := New h.

Definition popBuf (l : Logger) : slice * Logger :=
  if (List.length (bufs l) =? 0)%nat
  then (make_bytes 1024, l)
  else (nth (List.length (bufs l) - 1) (bufs l) (make_bytes 0),
        set_bufs (firstn (List.length (bufs l) - 1) (bufs l)) l).

Definition putBuf (buf : slice) (l : Logger) : Logger :=
  if (List.length (bufs l) <? maxBufPoolSize)%nat
  then set_bufs (bufs l ++ [reslice0 buf]) l
  else l.

(** The case [<-l.quit] of the select: leave the loop when the queue is
    empty, go round again otherwise. *)
Definition quit_case (l : Logger) : Logger :=
  if (List.length (msg l) =? 0)%nat
  then set_wg (wg l - 1) (set_loop Exited l)
  else l.

(** One atomic piece of [run]; [None] when the goroutine cannot move (it
    waits in the select, or it has returned).  A receive from [l.msg] can
    proceed when the queue holds a buffer, a receive from [l.quit] when that
    channel is closed; [pick] decides when both can. *)
Definition run_step (pick : choice) (l : Logger) : option Logger :=
  match loop l with
  | AtSelect =>
      match msg l, quit l with
      | [], ChanClosed => Some (quit_case l)
      | [], _ => None
      | m :: rest, ChanClosed =>
          match pick with
          | PickMsg => Some (set_loop (Received m) (set_msg rest l))
          | PickQuit => Some (quit_case l)
          end
      | m :: rest, _ => Some (set_loop (Received m) (set_msg rest l))
      end
  | Received m => Some (set_loop (Wrote m) (emit (HandlerWrite (bytes m)) l))
  | Wrote m => Some (set_loop AtSelect (putBuf m l))
  | Exited => None
  end.

(** [l.wg.Wait()], while no other goroutine than [run] moves. *)
Fixpoint wg_Wait (fuel : nat) (sched : scheduler) (l : Logger)
  : result Logger :=
  if (wg l =? 0)%nat then Ok l
  else match fuel with
       | O => Pending
       | S fuel' =>
           match run_step (sched O) l with
           | Some l' => wg_Wait fuel' (sched_tl sched) l'
           | None => Pending
           end
       end.

(** [l.msg <- buf]: the send waits while the queue is full, and only [run]
    can make room. *)
Fixpoint chan_send (fuel : nat) (sched : scheduler) (buf : slice)
  (l : Logger) : result Logger :=
  if (List.length (msg l) <? msgCap)%nat
  then Ok (set_msg (msg l ++ [buf]) l)
  else match fuel with
       | O => Pending
       | S fuel' =>
           match run_step (sched O) l with
           | Some l' => chan_send fuel' (sched_tl sched) buf l'
           | None => Pending
           end
       end.

Definition Close (fuel : nat) (sched : scheduler) (l : Logger)
  : result Logger :=
  if closed l then Ok l
  else
    let l := set_closed true l in
    match quit l with
    | ChanOpen =>
        let l := emit QuitClose (set_quit ChanClosed l) in
        match wg_Wait fuel sched l with
        | Ok l =>
            let l := set_quit ChanNil l in
            Ok (emit HandlerClose l)
        | Panic => Panic
        | Pending => Pending
        end
    | ChanClosed | ChanNil => Panic
    end.

Definition SetLevel (v : LogLever) (l : Logger) : Logger := set_level v l.

Definition Level (l : Logger) : LogLever := level l.

(** What [Output] reads from outside the logger: the clock,
    [time.Now().Format(TimeFormat)], and the stack inspector
    [runtime.Caller], which yields a file and a line or fails. *)
Record Env := mkEnv {
  TimeNow : string;
  Caller : Z -> option (string * Z)
}.

(** The file and line shown for the call site. *)
Definition call_site (e : Env) (callDepth : Z) : string * Z :=
  match Caller e callDepth with
  | None => ("???", 0)
  | Some (file, line) => (shorten file, line)
  end.

(** [len(s) == 0 || s[len(s)-1] != '\n'] *)
Definition needs_newline (s : string) : bool :=
  (String.length s =? 0)%nat
  || match String.get (String.length s - 1) s with
     | Some c => negb (Ascii.eqb c LF)
     | None => true
     end.

(** The body of [Output] between [popBuf] and the send: every append to
    [buf], in order.  [s] is [fmt.Sprintf(format, v...)]. *)
Definition render (e : Env) (l : Logger) (ln : bool) (callDepth : Z)
  (lv : LogLever) (s : string) (buf : slice) : slice :=
  let now := TimeNow e in
  let buf := if ln then append_string growslice buf (String ESC "[1A")
             else buf in
  let buf := append_string growslice buf now in
  let buf := append_string growslice buf " - " in
  let buf := append_string growslice buf (colorStart l lv) in
  let buf := append_string growslice buf (levelName lv) in
  let buf := append_string growslice buf (colorStop l lv) in
  let buf := append_string growslice buf " - " in
  let (file, line) := call_site e callDepth in
  let buf := append_string growslice buf file in
  let buf := append_string growslice buf ":[" in
  let buf := AppendInt growslice buf line in
  let buf := append_string growslice buf "] - " in
  let buf := append_string growslice buf s in
  let buf := if ln then append_string growslice buf (String ESC "[K")
             else buf in
  if needs_newline s then append_bytes growslice buf [x0a] else buf.

Definition Output (fuel : nat) (sched : scheduler) (e : Env) (ln : bool)
  (callDepth : Z) (lv : LogLever) (s : string) (l : Logger)
  : result Logger :=
  if negb (Z.land (level l) lv =? lv) then Ok l
  else
    let (buf, l) := popBuf l in
    let buf := render e l ln callDepth lv s buf in
    chan_send fuel sched buf l.

Definition Debug fuel sched e (s : string) (l : Logger) :=
  Output fuel sched e false 2 LevelDebug s l.
Definition Info fuel sched e (s : string) (l : Logger) :=
  Output fuel sched e false 2 LevelInfo s l.
Definition Warn fuel sched e (s : string) (l : Logger) :=
  Output fuel sched e false 2 LevelWarn s l.
Definition Error fuel sched e (s : string) (l : Logger) :=
  Output fuel sched e false 2 LevelError s l.

(** ** The default logger *)

(** The package variable [defLoger] (a pointer, possibly nil) and what
    [fmt.Println] has printed. *)
Record World := mkWorld {
  defLoger : option Logger;
  stdout : list string
}.

(** The handler constructors live outside [log.go]:
    [NewTimeRotatingFileHandler] yields a handler or the text of its
    error, [newStdHandler] the stream handler on standard output, and
    [WhenDay] is a constant of the rotating handler. *)
Variable NewTimeRotatingFileHandler : string -> Z -> Z -> H + string.
Variable newStdHandler : H.
Variable WhenDay : Z.

Definition SetLogFile (fuel : nat) (sched : scheduler) (logFile : string)
  (w : World) : result World :=
  let closed_prev :=
    match defLoger w with
    | Some l =>
        match Close fuel sched l with
        | Ok l' => Ok (Some l')
        | Panic => Panic
        | Pending => Pending
        end
    | None => Ok None
    end in
  match closed_prev with
  | Ok d =>
      let w := mkWorld d (stdout w) in
      let made :=
        if negb (String.length logFile =? 0)%nat
        then match NewTimeRotatingFileHandler logFile WhenDay 1 with
             | inl h => inl (Some h)
             | inr err => inr err
             end
        else inl None in
      match made with
      | inr err => Ok (mkWorld (defLoger w) (stdout w ++ [err]))
      | inl h =>
          let h := match h with
                   | None => newStdHandler
                   | Some h => h
                   end in
          Ok (mkWorld (Some (NewDefault h)) (stdout w))
      end
  | Panic => Panic
  | Pending => Pending
  end.

(** The package-level [Info]; a nil [defLoger] makes it panic. *)
Definition DefaultInfo fuel sched e (s : string) (w : World)
  : result World :=
  match defLoger w with
  | Some l =>
      match Output fuel sched e false 2 LevelInfo s l with
      | Ok l' => Ok (mkWorld (Some l') (stdout w))
      | Panic => Panic
      | Pending => Pending
      end
  | None => Panic
  end.

End WithHandler.

Arguments level {H} l.
Arguments flag {H} l.
Arguments handler {H} l.
Arguments quit {H} l.
Arguments msg {H} l.
Arguments bufs {H} l.
Arguments wg {H} l.
Arguments closed {H} l.
Arguments loop {H} l.
Arguments trace {H} l.
Arguments mkLogger {H}.
Arguments set_level {H}.
Arguments set_quit {H}.
Arguments set_msg {H}.
Arguments set_bufs {H}.
Arguments set_wg {H}.
Arguments set_closed {H}.
Arguments set_loop {H}.
Arguments emit {H}.
Arguments New {H}.
Arguments NewDefault {H}.
Arguments popBuf {H}.
Arguments putBuf {H}.
Arguments quit_case {H}.
Arguments run_step {H}.
Arguments wg_Wait {H}.
Arguments chan_send {H}.
Arguments Close {H}.
Arguments SetLevel {H}.
Arguments Level {H}.
Arguments render {H}.
Arguments Output {H}.
Arguments Debug {H}.
Arguments Info {H}.
Arguments Warn {H}.
Arguments Error {H}.
Arguments defLoger {H}.
Arguments stdout {H}.
Arguments mkWorld {H}.
Arguments SetLogFile {H}.
Arguments DefaultInfo {H}.

(** ** Observations on a logger *)

(** The buffers accepted by the logger and not yet handed to the handler:
    the one [run] holds between its receive and its [Write], then the
    queue. *)
Definition pending {H} (l : Logger H) : list slice :=
  match loop l with
  | Received m => m :: msg l
  | _ => msg l
  end.

(** The payloads of the writes in a trace. *)
Fixpoint writes (t : list event) : list (list byte) :=
  match t with
  | [] => []
  | HandlerWrite p :: t' => p :: writes t'
  | _ :: t' => writes t'
  end.

Definition event_eqb (a b : event) : bool :=
  match a, b with
  | HandlerClose, HandlerClose => true
  | QuitClose, QuitClose => true
  | _, _ => false
  end.

(** How many times the handler, or the quit channel, has been closed. *)
Definition handler_closes (t : list event) : nat :=
  List.length (filter (event_eqb HandlerClose) t).
Definition quit_closes (t : list event) : nat :=
  List.length (filter (event_eqb QuitClose) t).

(** The free list holds at most 16 buffers, all of length zero. *)
Definition pool_ok {H} (l : Logger H) : Prop :=
  (List.length (bufs l) <= maxBufPoolSize)%nat
  /\ Forall (fun b => bytes b = []) (bufs l).

(** The logger has not been closed: its goroutine is alive, the quit
    channel is open, and the queue holds no more than the channel's
    capacity. *)
Definition running {H} (l : Logger H) : Prop :=
  closed l = false /\ quit l = ChanOpen /\ wg l = 1%nat /\ loop l <> Exited
  /\ (List.length (msg l) <= msgCap)%nat.

(** In the select with both cases ready, the receive from the queue is
    taken again and again. *)
Definition fair (sched : scheduler) : Prop :=
  forall i : nat, exists k : nat, sched (i + k)%nat = PickMsg.

(** The goroutine [run], left alone for at most [fuel] steps. *)
Fixpoint run {H} (fuel : nat) (sched : scheduler) (l : Logger H)
  : Logger H :=
  match fuel with
  | O => l
  | S fuel' =>
      match run_step (sched O) l with
      | Some l' => run fuel' (sched_tl sched) l'
      | None => l
      end
  end.

(** The last character of a string. *)
Fixpoint last_char (s : string) : option ascii :=
  match s with
  | EmptyString => None
  | String c EmptyString => Some c
  | String _ rest => last_char rest
  end.

(** The newline [Output] adds after a message. *)
Definition closing_newline (s : string) : string :=
  match last_char s with
  | Some c => if Ascii.eqb c LF then "" else String LF ""
  | None => String LF ""
  end.

(** ** Notions used in the proofs *)

(** The text of a record: what [render] appends to the buffer it is
    given. *)
Definition record_text {H} (e : Env) (l : Logger H) (ln : bool)
  (callDepth : Z) (lv : LogLever) (s : string) : string :=
  ((if ln then String ESC "[1A" else "")
   ++ TimeNow e ++ " - "
   ++ colorStart l lv ++ levelName lv ++ colorStop l lv ++ " - "
   ++ fst (call_site e callDepth) ++ ":["
   ++ FormatInt (snd (call_site e callDepth)) ++ "] - "
   ++ s
   ++ (if ln then String ESC "[K" else "")
   ++ closing_newline s)%string.

(** The layout the specification gives for a record, up to the message:
    timestamp, separator, coloured label, separator, [file:[line]],
    separator, message. *)
Definition spec_record_line {H} (e : Env) (l : Logger H) (callDepth : Z)
  (lv : LogLever) (s : string) : string :=
  (TimeNow e ++ " - "
   ++ colorStart l lv ++ levelName lv ++ colorStop l lv ++ " - "
   ++ fst (call_site e callDepth) ++ ":["
   ++ FormatInt (snd (call_site e callDepth)) ++ "] - "
   ++ s)%string.

(** The record of the specification: that line and the closing newline. *)
Definition spec_record_text {H} (e : Env) (l : Logger H) (callDepth : Z)
  (lv : LogLever) (s : string) : string :=
  (spec_record_line e l callDepth lv s ++ closing_newline s)%string.

(** The fields [run] never assigns. *)
Definition same_settings {H} (l l' : Logger H) : Prop :=
  level l' = level l /\ flag l' = flag l /\ handler l' = handler l
  /\ closed l' = closed l /\ quit l' = quit l.

(** The writes already made followed by those still owed. *)
Definition timeline {H} (l : Logger H) : list (list byte) :=
  writes (trace l) ++ map bytes (pending l).

(** The steps [run] still has to make before it waits in its select. *)
Definition steps_left {H} (l : Logger H) : nat :=
  (3 * List.length (msg l)
   + match loop l with Received _ => 2 | Wrote _ => 1 | _ => 0 end)%nat.

(** The steps of [run] a sender has to wait for. *)
Definition steps_to_room {H} (l : Logger H) : nat :=
  if (List.length (msg l) <? msgCap)%nat then 0%nat
  else match loop l with
       | AtSelect => 1
       | Wrote _ => 2
       | Received _ => 3
       | Exited => 0
       end%nat.

(** The trace once every buffer owed has been written. *)
Definition owed_trace {H} (l : Logger H) : list event :=
  trace l ++ map HandlerWrite (map bytes (pending l)).

(** [Close] has closed the quit channel and waits for [run]. *)
Definition draining {H} (l : Logger H) : Prop :=
  quit l = ChanClosed /\ wg l = 1%nat /\ loop l <> Exited.

(** [run] has written all it owed and has returned. *)
Definition drained {H} (l l' : Logger H) : Prop :=
  owed_trace l' = owed_trace l /\ pending l' = [] /\ msg l' = []
  /\ loop l' = Exited /\ wg l' = 0%nat
  /\ same_settings l l' /\ (pool_ok l -> pool_ok l').

(** The state in which [Close] waits. *)
Definition closing {H} (l : Logger H) : Logger H :=
  emit QuitClose (set_quit ChanClosed (set_closed true l)).

(** What a [Close] that did its work leaves behind. *)
Definition shut_down {H} (l l' : Logger H) : Prop :=
  trace l'
  = trace l ++ [QuitClose] ++ map HandlerWrite (map bytes (pending l))
    ++ [HandlerClose]
  /\ closed l' = true /\ quit l' = ChanNil /\ loop l' = Exited
  /\ msg l' = [] /\ wg l' = 0%nat
  /\ level l' = level l /\ handler l' = handler l
  /\ (pool_ok l -> pool_ok l').

(** [Close] called [n] times in a row. *)
Fixpoint Close_times {H} (n : nat) (fuel : nat) (sched : scheduler)
  (l : Logger H) : result (Logger H) :=
  match n with
  | O => Ok l
  | S k =>
      match Close fuel sched l with
      | Ok l' => Close_times k fuel sched l'
      | Panic => Panic
      | Pending => Pending
      end
  end.

(** The loggers a program can have before it calls [Close]: made by
    [New], then used through [Output] and [SetLevel] while [run] moves. *)
Inductive reachable {H} (g : nat -> nat -> nat) : Logger H -> Prop :=
| reach_New (h : H) : reachable g (New h)
| reach_run (pick : choice) (l l' : Logger H) :
    reachable g l -> run_step pick l = Some l' -> reachable g l'
| reach_Output (fuel : nat) (sched : scheduler) (e : Env) (ln : bool)
    (callDepth : Z) (lv : LogLever) (s : string) (l l' : Logger H) :
    reachable g l ->
    Output g fuel sched e ln callDepth lv s l = Ok l' ->
    reachable g l'
| reach_SetLevel (v : LogLever) (l : Logger H) :
    reachable g l -> reachable g (SetLevel v l).

(** ** The other entry points of the package *)

(** The package-level [SetLevel] and [GetLevel] go through [defLoger]; a
    nil [defLoger] makes them panic. *)
Definition DefaultSetLevel {H} (v : LogLever) (w : World H)
  : result (World H) :=
  match defLoger w with
  | Some l => Ok (mkWorld (Some (SetLevel v l)) (stdout w))
  | None => Panic
  end.

Definition GetLevel {H} (w : World H) : result LogLever :=
  match defLoger w with
  | Some l => Ok (level l)
  | None => Panic
  end.

Definition StdLogger {H} (w : World H) : option (Logger H) := defLoger w.

(** The package-level [DebugLine]: [Output] with [ln = true]. *)
Definition DebugLine {H} (g : nat -> nat -> nat) (fuel : nat)
  (sched : scheduler) (e : Env) (s : string) (w : World H)
  : result (World H) :=
  match defLoger w with
  | Some l =>
      match Output g fuel sched e true 2 LevelDebug s l with
      | Ok l' => Ok (mkWorld (Some l') (stdout w))
      | Panic => Panic
      | Pending => Pending
      end
  | None => Panic
  end.

(** One call of [Output]: what it reads from outside and its arguments. *)
Record call := mkCall {
  call_env : Env;
  call_ln : bool;
  call_depth : Z;
  call_level : LogLever;
  call_text : string
}.

(** Calls of [Output] made one after the other. *)
Fixpoint Output_all {H} (g : nat -> nat -> nat) (fuel : nat)
  (sched : scheduler) (cs : list call) (l : Logger H)
  : result (Logger H) :=
  match cs with
  | [] => Ok l
  | c :: rest =>
      match Output g fuel sched (call_env c) (call_ln c) (call_depth c)
                   (call_level c) (call_text c) l with
      | Ok l' => Output_all g fuel sched rest l'
      | Panic => Panic
      | Pending => Pending
      end
  end.

(** The calls a level mask lets through, and the bytes of their
    records. *)
Definition enabled_call (mask : LogLever) (c : call) : bool :=
  Z.land mask (call_level c) =? call_level c.

Definition call_record {H} (l : Logger H) (c : call) : list byte :=
  list_byte_of_string
    (record_text (call_env c) l (call_ln c) (call_depth c) (call_level c)
                 (call_text c)).

(** The buffers [run] still has to put back into the pool: the one it
    holds and those in the queue. *)
Definition to_recycle {H} (l : Logger H) : nat :=
  (List.length (msg l)
   + match loop l with Received _ | Wrote _ => 1 | _ => 0 end)%nat.

(** * The string set of [set/strset.go] *)

(** A Go [map[string]bool]: the nil map, or the list of its entries, in
    which an assignment replaces the entry of its key or adds one. *)
Definition go_map := option (list (string * bool)).

Fixpoint entries_get (m : list (string * bool)) (k : string)
  : option bool :=
  match m with
  | [] => None
  | (k', v) :: rest => if String.eqb k' k then Some v else entries_get rest k
  end.

Fixpoint entries_set (m : list (string * bool)) (k : string) (v : bool)
  : list (string * bool) :=
  match m with
  | [] => [(k, v)]
  | (k', v') :: rest =>
      if String.eqb k' k then (k', v) :: rest
      else (k', v') :: entries_set rest k v
  end.

Definition StrSet := go_map.

(** [len(s)]; the nil map has length 0. *)
Definition Count (s : StrSet) : Z :=
  match s with
  | None => 0
  | Some m => Z.of_nat (List.length m)
  end.

(** [s[str] = true]; an assignment into the nil map panics. *)
Definition Add (str : string) (s : StrSet) : result StrSet :=
  match s with
  | None => Panic
  | Some m => Ok (Some (entries_set m str true))
  end.

(** [a, b := s[str]; return a && b]: a missing key reads as [false],
    [false]. *)
Definition Has (str : string) (s : StrSet) : bool :=
  let '(a, b) :=
    match s with
    | None => (false, false)
    | Some m =>
        match entries_get m str with
        | Some v => (v, true)
        | None => (false, false)
        end
    end in
  a && b.

(** * The cache of [cache/cache.go] and [cache/redis.go] *)

(** A [time.Duration]: an [int64] of nanoseconds. *)
Definition Duration := Z.
Definition Second : Duration := 1000000000.

Definition DefaultExpiryTime : Duration := 0.
Definition ForEverNeverExpiry : Duration := -1.

(** The errors of the package, and those that come from outside it (the
    Redis client, the serializer). *)
Inductive error :=
| ErrCacheMiss
| ErrNotStored
| ErrInvalidValue
| ErrInited
| ErrOther (text : string).

(** The conversions [int64(x)], [uint64(x)] and [int32(x)]. *)
Definition int64_of (z : Z) : Z := (z + 2 ^ 63) mod 2 ^ 64 - 2 ^ 63.
Definition uint64_of (z : Z) : Z := z mod 2 ^ 64.
Definition int32_of (z : Z) : Z := (z + 2 ^ 31) mod 2 ^ 32 - 2 ^ 31.

(** The arguments the cache gives to [conn.Do] after the command name. *)
Inductive arg :=
| AString (s : string)
| ABytes (b : list byte)
| AInt32 (z : Z)
| AInt64 (z : Z)
| AUint64 (z : Z).

(** The number an integer argument carries. *)
Definition arg_number (a : arg) : Z :=
  match a with
  | AInt32 z | AInt64 z | AUint64 z => z
  | AString _ | ABytes _ => 0
  end.

(** What [conn.Do] hands back when it does not fail. *)
Inductive reply :=
| ReplyNil
| ReplyInt (z : Z)
| ReplyBytes (b : list byte)
| ReplyString (s : string).

Record RedisCache := mkRedisCache {
  pool_host : string;
  pool_password : string;
  pool_dbNum : Z;
  defaultExpiration : Duration
}.

(** The pool is described by what its [Dial] captures. *)
Definition newRedisCache (host password : string) (dbNum : Z)
  (defaultExpiration : Duration) : RedisCache :=
  mkRedisCache host password dbNum defaultExpiration.

(** The package variable [_cache] is nil or holds the cache. *)
Definition InitRedisCache (host password : string) (dbNum : Z)
  (defaultExpiration : Duration) (_cache : option RedisCache)
  : option error * option RedisCache :=
  match _cache with
  | Some _ => (Some ErrInited, _cache)
  | None =>
      (None, Some (newRedisCache host password dbNum defaultExpiration))
  end.

(** Calls of [InitRedisCache] made one after the other: their results and
    the final [_cache]. *)
Fixpoint InitRedisCache_all (calls : list (string * string * Z * Duration))
  (_cache : option RedisCache) : list (option error) * option RedisCache :=
  match calls with
  | [] => ([], _cache)
  | (host, password, dbNum, expiration) :: rest =>
      let (err, c) := InitRedisCache host password dbNum expiration _cache in
      let (errs, c') := InitRedisCache_all rest c in
      (err :: errs, c')
  end.

Section Redis.

(** The server reached through a connection of the pool, and [conn.Do] on
    it.  Borrowing the connection ([c.p.Get()]) and giving it back
    ([conn.Close()]) are left out; a failed dial shows as an error of
    [Do]. *)
Variable Server : Type.
Variable Do : string -> list arg -> Server -> (reply + error) * Server.

(** The reply helpers of the Redis client, on a reply that is not an
    error. *)
Variable redis_Int64 : reply -> Z + error.
Variable redis_Bool : reply -> bool + error.
Variable redis_Bytes : reply -> list byte + error.

(** The values stored, with [Serialize] and [Deserialize], which are
    defined elsewhere in the package. *)
Variable Value : Type.
Variable Serialize : Value -> list byte + error.
Variable Deserialize : list byte -> Value + error.

(** [redis.Int64(reply, err)] and [redis.Bool(reply, err)]: an error of
    [Do] goes through. *)
Definition Int64 (r : reply + error) : Z + error :=
  match r with
  | inl v => redis_Int64 v
  | inr err => inr err
  end.

Definition Bool (r : reply + error) : bool + error :=
  match r with
  | inl v => redis_Bool v
  | inr err => inr err
  end.

Definition invoke (c : RedisCache)
  (f : string -> list arg -> Server -> (reply + error) * Server)
  (key : string) (value : Value) (expires : Duration) (s : Server)
  : option error * Server :=
  let expires :=
    if expires =? DefaultExpiryTime then defaultExpiration c
    else if expires =? ForEverNeverExpiry then 0
    else expires in
  match Serialize value with
  | inr err => (Some err, s)
  | inl b =>
      if expires >? 0
      then
        match f "SETEX" [AString key; AInt32 (int32_of (Z.quot expires Second));
                         ABytes b] s with
        | (inl _, s') => (None, s')
        | (inr err, s') => (Some err, s')
        end
      else
        match f "SET" [AString key; ABytes b] s with
        | (inl _, s') => (None, s')
        | (inr err, s') => (Some err, s')
        end
  end.

Definition Set_ (c : RedisCache) (key : string) (value : Value)
  (expires : Duration) (s : Server) : option error * Server :=
  invoke c Do key value expires s.

(** [Get] decodes into the pointer it is given; here it returns the
    value. *)
Definition Get (c : RedisCache) (key : string) (s : Server)
  : (Value + error) * Server :=
  match Do "GET" [AString key] s with
  | (inr err, s1) => (inr err, s1)
  | (inl ReplyNil, s1) => (inr ErrCacheMiss, s1)
  | (inl raw, s1) =>
      match redis_Bytes raw with
      | inr err => (inr err, s1)
      | inl item => (Deserialize item, s1)
      end
  end.

Definition exists_ (key : string) (s : Server) : (bool + error) * Server :=
  let (r, s1) := Do "EXISTS" [AString key] s in (Bool r, s1).

Definition Delete (c : RedisCache) (key : string) (s : Server)
  : option error * Server :=
  let (r, s1) := Do "DEL" [AString key] s in
  match Bool r with
  | inr err => (Some err, s1)
  | inl true => (None, s1)
  | inl false => (Some ErrCacheMiss, s1)
  end.

Definition Increment (c : RedisCache) (key : string) (delta : Z)
  (s : Server) : (Z * option error) * Server :=
  match Do "GET" [AString key] s with
  | (inr err, s1) => ((0, Some err), s1)
  | (inl ReplyNil, s1) => ((0, Some ErrCacheMiss), s1)
  | (inl val, s1) =>
      match redis_Int64 val with
      | inr err => ((0, Some err), s1)
      | inl currentVal =>
          let sum := int64_of (currentVal + int64_of delta) in
          match Do "SET" [AString key; AInt64 sum] s1 with
          | (inr err, s2) => ((0, Some err), s2)
          | (inl _, s2) => ((uint64_of sum, None), s2)
          end
      end
  end.

Definition Decrement (c : RedisCache) (key : string) (delta : Z)
  (s : Server) : (Z * option error) * Server :=
  match exists_ key s with
  | (inr err, s1) => ((0, Some err), s1)
  | (inl false, s1) => ((0, Some ErrCacheMiss), s1)
  | (inl true, s1) =>
      let (r2, s2) := Do "GET" [AString key] s1 in
      match Int64 r2 with
      | inr err => ((0, Some err), s2)
      | inl currentVal =>
          let amount :=
            if delta >? uint64_of currentVal then AInt64 currentVal
            else AUint64 delta in
          let (r3, s3) := Do "DECRBY" [AString key; amount] s2 in
          match Int64 r3 with
          | inl tempint => ((uint64_of tempint, None), s3)
          | inr err => ((uint64_of 0, Some err), s3)
          end
      end
  end.

Definition ClearAll (c : RedisCache) (s : Server) : option error * Server :=
  match Do "FLUSHDB" [] s with
  | (inl _, s1) => (None, s1)
  | (inr err, s1) => (Some err, s1)
  end.

End Redis.

Arguments invoke {Server Value}.
Arguments Set_ {Server} Do {Value}.
Arguments Get {Server} Do redis_Bytes {Value}.
Arguments exists_ {Server}.
Arguments Delete {Server}.
Arguments Increment {Server}.
Arguments Decrement {Server}.
Arguments ClearAll {Server}.

(** ** Dialling *)

(** A connection as [Dial] sees it: the commands sent on it so far and
    whether it is still open. *)
Record Conn := mkConn {
  sent : list (string * list arg);
  conn_open : bool
}.

Section Dialling.

(** [redis.Dial] connects or fails; [answer] tells which commands the
    server refuses. *)
Variable connect : string -> option error.
Variable answer : string -> list arg -> option error.

Definition conn_Do (name : string) (args : list arg) (c : Conn)
  : option error * Conn :=
  (answer name args, mkConn (sent c ++ [(name, args)]) (conn_open c)).

Definition conn_Close (c : Conn) : Conn := mkConn (sent c) false.

(** The [Dial] function of the pool made by [newRedisCache].  It yields
    the error of [redis.Dial], or the connection it made, in its final
    state, with the error it returns; the caller gets the connection when
    that error is nil. *)
Definition Dial (c : RedisCache) : error + (Conn * option error) :=
  match connect (pool_host c) with
  | Some err => inl err
  | None =>
      let conn := mkConn [] true in
      let (err, conn) :=
        if (0 <? String.length (pool_password c))%nat
        then conn_Do "AUTH" [AString (pool_password c)] conn
        else conn_Do "PING" [] conn in
      match err with
      | Some err => inr (conn_Close conn, Some err)
      | None =>
          let (err, conn) := conn_Do "SELECT" [AInt64 (pool_dbNum c)] conn in
          match err with
          | Some err => inr (conn_Close conn, Some err)
          | None => inr (conn, None)
          end
      end
  end.

End Dialling.

(** The error, if any, and the server after a command whose reply is not
    looked at. *)
Definition command_outcome {Server} (r : (reply + error) * Server)
  : option error * Server :=
  match r with
  | (inl _, s') => (None, s')
  | (inr err, s') => (Some err, s')
  end.

(** The expiry [invoke] works with: the default for [DefaultExpiryTime],
    none for [ForEverNeverExpiry]. *)
Definition effective_expiry (c : RedisCache) (expires : Duration)
  : Duration :=
  if expires =? DefaultExpiryTime then defaultExpiration c
  else if expires =? ForEverNeverExpiry then 0
  else expires.

(** ** Sample inputs *)

Definition sample_env : Env :=
  mkEnv "2024/01/02 03:04:05" (fun _ : Z => Some ("/src/app/main.go", 42)).

(** A select that takes the queue whenever it can. *)
Definition eager : scheduler := fun _ => PickMsg.

(** A logger at work: every level enabled, one buffer held by [run], two
    in the queue, one in the pool. *)
Definition busy_logger : Logger unit :=
  {| level := LevelAll;
     flag := 0;
     handler := tt;
     quit := ChanOpen;
     msg := [mkSlice (list_byte_of_string "second") 1024;
             mkSlice (list_byte_of_string "third") 1024];
     bufs := [mkSlice [] 1024];
     wg := 1;
     closed := false;
     loop := Received (mkSlice (list_byte_of_string "first") 1024);
     trace := [] |}.

(** A logger after [Close]: what [Close] makes of a new logger at
    [LevelAll]. *)
Definition shut_logger : Logger unit :=
  {| level := LevelAll;
     flag := 0;
     handler := tt;
     quit := ChanNil;
     msg := [];
     bufs := [];
     wg := 0;
     closed := true;
     loop := Exited;
     trace := [QuitClose; HandlerClose] |}.

(** A logger whose queue is full. *)
Definition full_logger : Logger unit :=
  {| level := LevelAll;
     flag := 0;
     handler := tt;
     quit := ChanOpen;
     msg := repeat (mkSlice [] 1024) msgCap;
     bufs := [];
     wg := 1;
     closed := false;
     loop := AtSelect;
     trace := [] |}.

(** A stack inspector that fails. *)
Definition lost_env : Env :=
  mkEnv "2024/01/02 03:04:05" (fun _ : Z => None).

Definition sample_calls : list call :=
  [mkCall sample_env false 2 LevelInfo "started";
   mkCall sample_env false 2 16 "not a level";
   mkCall sample_env true 2 LevelDebug "tick";
   mkCall sample_env false 2 LevelError "failed"].

Definition enabled_calls : list call :=
  [mkCall sample_env false 2 LevelInfo "started";
   mkCall sample_env false 2 LevelError "failed"].

(** A server that holds one counter, and reply helpers for it. *)
Definition counter_Do (name : string) (args : list arg) (v : Z)
  : (reply + error) * Z :=
  if String.eqb name "GET" then (inl (ReplyInt v), v)
  else if String.eqb name "EXISTS" then (inl (ReplyInt 1), v)
  else if String.eqb name "SET"
  then (inl (ReplyString "OK"), arg_number (nth 1 args (AInt64 0)))
  else if String.eqb name "DECRBY"
  then (inl (ReplyInt (v - arg_number (nth 1 args (AInt64 0)))),
        v - arg_number (nth 1 args (AInt64 0)))
  else (inr (ErrOther "unknown command"), v).

Definition counter_Int64 (r : reply) : Z + error :=
  match r with
  | ReplyInt z => inl z
  | _ => inr (ErrOther "unexpected type")
  end.

Definition counter_Bool (r : reply) : bool + error :=
  match r with
  | ReplyInt z => inl (negb (z =? 0))
  | _ => inr (ErrOther "unexpected type")
  end.

(** A server that records the commands it gets, and a serializer of
    strings. *)
Definition recording_Do (name : string) (args : list arg)
  (log : list (string * list arg))
  : (reply + error) * list (string * list arg) :=
  (inl (ReplyString "OK"), log ++ [(name, args)]).

Definition string_Serialize (v : string) : list byte + error :=
  inl (list_byte_of_string v).

Definition sample_cache : RedisCache :=
  newRedisCache "localhost:6379" "" 0 (3600 * Second).


(** * Properties *)

(** ** Strings and slices *)

Lemma list_byte_of_string_app (a b : string) :
  list_byte_of_string (a ++ b)%string = list_byte_of_string a ++ list_byte_of_string b.
Proof.
  unfold list_byte_of_string.
  induction a as [|c a IH]; simpl; [reflexivity|].
  now rewrite IH.
Qed.

Lemma string_app_assoc (a b c : string) :
  ((a ++ b) ++ c)%string = (a ++ (b ++ c))%string.
Proof. induction a as [|x a IH]; simpl; [reflexivity | now rewrite IH]. Qed.

Ltac string_assoc :=
  repeat progress (rewrite ?string_app_assoc; cbn [String.append]).

Lemma string_app_empty_r (a : string) : (a ++ "")%string = a.
Proof. induction a as [|x a IH]; simpl; [reflexivity | now rewrite IH]. Qed.

Lemma bytes_append_string g (b : slice) (s : string) :
  bytes (append_string g b s) = bytes b ++ list_byte_of_string s.
Proof. reflexivity. Qed.

Lemma bytes_append_bytes g (b : slice) (p : list byte) :
  bytes (append_bytes g b p) = bytes b ++ p.
Proof. reflexivity. Qed.

Lemma bytes_AppendInt g (b : slice) (i : Z) :
  bytes (AppendInt g b i) = bytes b ++ list_byte_of_string (FormatInt i).
Proof. reflexivity. Qed.

Lemma get_last_char (s : string) :
  String.get (String.length s - 1) s = last_char s.
Proof.
  induction s as [|c s IH]; [reflexivity|].
  destruct s as [|d s]; [reflexivity|].
  simpl String.length. simpl String.length in IH.
  replace (S (S (String.length s)) - 1)%nat with (S (String.length s)) by lia.
  replace (S (String.length s) - 1)%nat with (String.length s) in IH by lia.
  change (last_char (String c (String d s))) with (last_char (String d s)).
  rewrite <- IH. reflexivity.
Qed.

Lemma needs_newline_spec (s : string) :
  (if needs_newline s then String LF "" else "") = closing_newline s.
Proof.
  unfold needs_newline, closing_newline.
  rewrite get_last_char.
  destruct s as [|c s]; [reflexivity|].
  change (String.length (String c s) =? 0)%nat with false.
  cbv beta iota delta [orb].
  destruct (last_char (String c s)) as [x|]; [|reflexivity].
  destruct (Ascii.eqb x LF); reflexivity.
Qed.

(** ** Severity bits *)

Lemma land_bit (v : Z) (k : Z) :
  0 <= k -> (Z.land v (Z.shiftl 1 k) =? Z.shiftl 1 k) = Z.testbit v k.
Proof.
  intros Hk.
  rewrite Z.shiftl_1_l.
  destruct (Z.testbit v k) eqn:Hb.
  - apply Z.eqb_eq. apply Z.bits_inj'. intros n Hn.
    rewrite Z.land_spec, Z.pow2_bits_eqb by assumption.
    destruct (Z.eqb_spec k n) as [->|_].
    + now rewrite Hb.
    + apply andb_false_r.
  - apply Z.eqb_neq. intros E.
    assert (Hk' : Z.testbit (Z.land v (2 ^ k)) k = true).
    { rewrite E. rewrite Z.pow2_bits_eqb by assumption. apply Z.eqb_refl. }
    rewrite Z.land_spec, Hb in Hk'. discriminate.
Qed.

(** C10. The label of a severity is found by testing its Debug bit, then
    its Info bit, then its Warn bit, then its Error bit, each with a
    bitwise and; the first bit found set gives the label, so Debug wins
    over Error when both are set, and a value with none of the four bits
    has the empty label. *)
Theorem levelName_fixed_priority :
  (forall lv : LogLever,
      levelName lv =
        if Z.testbit lv 1 then "DEBUG"
        else if Z.testbit lv 0 then "INFO"
        else if Z.testbit lv 2 then "WARN"
        else if Z.testbit lv 3 then "ERROR"
        else "")
  /\ levelName (Z.lor LevelDebug LevelError) = "DEBUG"
  /\ levelName (Z.lor LevelInfo LevelWarn) = "INFO"
  /\ levelName (Z.lor LevelWarn LevelError) = "WARN"
  /\ levelName LevelAll = "DEBUG"
  /\ levelName 0 = ""
  /\ levelName 16 = "".
Proof.
  split; [|repeat split; reflexivity].
  intros lv. unfold levelName, LevelDebug, LevelWarn, LevelError.
  rewrite !land_bit by lia.
  change LevelInfo with (Z.shiftl 1 0).
  rewrite land_bit by lia.
  reflexivity.
Qed.

(** ** The rendered record *)

Lemma render_bytes {H} g (e : Env) (l : Logger H) ln callDepth lv s buf :
  bytes (render g e l ln callDepth lv s buf)
  = bytes buf ++ list_byte_of_string (record_text e l ln callDepth lv s).
Proof.
  unfold render, record_text.
  rewrite <- needs_newline_spec.
  destruct (call_site e callDepth) as [file line]. cbn [fst snd].
  destruct ln, (needs_newline s);
    repeat first [ rewrite bytes_append_bytes
                 | rewrite bytes_append_string
                 | rewrite bytes_AppendInt ];
    rewrite !list_byte_of_string_app;
    rewrite <- ?app_assoc; try rewrite !app_nil_r; reflexivity.
Qed.

(** ** The buffer pool *)

Section Pool.

Context {H : Type}.
Implicit Type l : Logger H.

Lemma popBuf_empty l :
  bufs l = [] -> popBuf l = (make_bytes 1024, l).
Proof. intros E. unfold popBuf. now rewrite E. Qed.

Lemma popBuf_last l (held : list slice) (b : slice) :
  bufs l = held ++ [b] -> popBuf l = (b, set_bufs held l).
Proof.
  intros E. unfold popBuf. rewrite E, length_app. simpl List.length.
  replace (List.length held + 1 - 1)%nat with (List.length held) by lia.
  destruct (Nat.eqb_spec (List.length held + 1) 0) as [E0|_]; [lia|].
  rewrite app_nth2, Nat.sub_diag by lia. simpl nth.
  rewrite firstn_app, Nat.sub_diag, firstn_all. simpl.
  now rewrite app_nil_r.
Qed.

Lemma pool_ok_set_bufs l (held : list slice) :
  (List.length held <= maxBufPoolSize)%nat ->
  Forall (fun b => bytes b = []) held ->
  pool_ok (set_bufs held l).
Proof. intros Hlen Hall. split; assumption. Qed.

Lemma popBuf_pool_ok l : pool_ok l -> pool_ok (snd (popBuf l)).
Proof.
  intros [Hlen Hall].
  destruct (bufs l) as [|b0 held0] eqn:E using rev_ind.
  - rewrite popBuf_empty by assumption. split; simpl; rewrite ?E; auto.
  - rewrite (popBuf_last l held0 b0) by assumption. simpl snd.
    apply Forall_app in Hall as [Hall _].
    rewrite length_app in Hlen. simpl in Hlen.
    apply pool_ok_set_bufs; [lia | assumption].
Qed.

Lemma popBuf_zero_length l : pool_ok l -> bytes (fst (popBuf l)) = [].
Proof.
  intros [_ Hall].
  destruct (bufs l) as [|b0 held0] eqn:E using rev_ind.
  - now rewrite popBuf_empty.
  - rewrite (popBuf_last l held0 b0) by assumption. simpl fst.
    apply Forall_app in Hall as [_ Hb]. now inversion Hb.
Qed.

Lemma putBuf_room l (buf : slice) :
  (List.length (bufs l) < maxBufPoolSize)%nat ->
  putBuf buf l = set_bufs (bufs l ++ [reslice0 buf]) l.
Proof.
  intros Hlt. unfold putBuf.
  now destruct (Nat.ltb_spec (List.length (bufs l)) maxBufPoolSize); [|lia].
Qed.

Lemma putBuf_full l (buf : slice) :
  (maxBufPoolSize <= List.length (bufs l))%nat -> putBuf buf l = l.
Proof.
  intros Hge. unfold putBuf.
  now destruct (Nat.ltb_spec (List.length (bufs l)) maxBufPoolSize); [lia|].
Qed.

Lemma putBuf_pool_ok l (buf : slice) : pool_ok l -> pool_ok (putBuf buf l).
Proof.
  intros [Hlen Hall].
  destruct (Nat.lt_ge_cases (List.length (bufs l)) maxBufPoolSize) as [Hlt|Hge].
  - rewrite putBuf_room by assumption. apply pool_ok_set_bufs.
    + rewrite length_app. simpl. lia.
    + apply Forall_app. split; [assumption|]. repeat constructor.
  - rewrite putBuf_full by assumption. split; assumption.
Qed.

End Pool.

(** C3. The free list of a new logger is empty, and [popBuf] and [putBuf]
    keep the free list within 16 buffers, all of length zero.  So [popBuf]
    returns a buffer of length zero, the fresh buffer of capacity 1024 when
    the list is empty and the buffer released last otherwise; [putBuf]
    keeps the buffer, cut to length zero with its capacity, when fewer
    than 16 are held, and leaves the logger as it is otherwise. *)
Theorem pool_invariant {H : Type} (l : Logger H) :
  pool_ok l ->
  (forall h : H, pool_ok (New h))
  /\ pool_ok (snd (popBuf l))
  /\ bytes (fst (popBuf l)) = []
  /\ (bufs l = [] -> popBuf l = (mkSlice [] 1024, l))
  /\ (forall held b,
         bufs l = held ++ [b] -> popBuf l = (b, set_bufs held l))
  /\ (forall buf : slice,
         pool_ok (putBuf buf l)
         /\ ((List.length (bufs l) < 16)%nat ->
             putBuf buf l = set_bufs (bufs l ++ [mkSlice [] (cap buf)]) l)
         /\ ((16 <= List.length (bufs l))%nat -> putBuf buf l = l)).
Proof.
  intros Hok.
  split; [intros h; split; simpl; [unfold maxBufPoolSize; lia | constructor]|].
  split; [now apply popBuf_pool_ok|].
  split; [now apply popBuf_zero_length|].
  split; [apply popBuf_empty|].
  split; [apply popBuf_last|].
  intros buf.
  split; [now apply putBuf_pool_ok|].
  split; [apply putBuf_room | apply putBuf_full].
Qed.

(** ** The dispatch goroutine *)

Section Dispatch.

Context {H : Type}.
Implicit Type l : Logger H.

Lemma same_settings_refl l : same_settings l l.
Proof. repeat split. Qed.

Lemma same_settings_trans l1 l2 l3 :
  same_settings l1 l2 -> same_settings l2 l3 -> same_settings l1 l3.
Proof.
  intros (A1 & A2 & A3 & A4 & A5) (B1 & B2 & B3 & B4 & B5).
  repeat split; congruence.
Qed.

Lemma putBuf_fields l (m : slice) :
  same_settings l (putBuf m l) /\ msg (putBuf m l) = msg l
  /\ wg (putBuf m l) = wg l /\ loop (putBuf m l) = loop l
  /\ trace (putBuf m l) = trace l.
Proof.
  unfold putBuf, same_settings.
  destruct (List.length (bufs l) <? maxBufPoolSize)%nat; repeat split.
Qed.

Lemma writes_app (t u : list event) : writes (t ++ u) = writes t ++ writes u.
Proof.
  induction t as [|e t IH]; [reflexivity|].
  destruct e; simpl; now rewrite IH.
Qed.

Lemma writes_map_HandlerWrite (ps : list (list byte)) :
  writes (map HandlerWrite ps) = ps.
Proof. induction ps as [|p ps IH]; simpl; [reflexivity | now rewrite IH]. Qed.

Lemma quit_case_empty l :
  msg l = [] -> quit_case l = set_wg (wg l - 1) (set_loop Exited l).
Proof. intros E. unfold quit_case. now rewrite E. Qed.

Lemma quit_case_nonempty l (m : slice) (rest : list slice) :
  msg l = m :: rest -> quit_case l = l.
Proof. intros E. unfold quit_case. now rewrite E. Qed.

Lemma pool_ok_same_bufs l l' : bufs l' = bufs l -> pool_ok l -> pool_ok l'.
Proof. unfold pool_ok. intros ->. auto. Qed.

(** Every step of [run] keeps the settings, the pool invariant and the
    timeline: a write moves one buffer from owed to made. *)
Lemma run_step_keeps (pick : choice) l l' :
  run_step pick l = Some l' ->
  same_settings l l'
  /\ timeline l' = timeline l
  /\ (pool_ok l -> pool_ok l').
Proof.
  unfold run_step, timeline, pending.
  destruct (loop l) as [|m|m|] eqn:Hpc; intros Hs.
  - destruct (msg l) as [|m rest] eqn:Hm.
    + destruct (quit l) eqn:Hq; try discriminate.
      injection Hs as <-. rewrite quit_case_empty by assumption.
      simpl. rewrite Hm.
      split; [repeat split | split; [reflexivity | now apply pool_ok_same_bufs]].
    + assert (Hrecv : forall l1, l1 = set_loop (Received m) (set_msg rest l) ->
                same_settings l l1
                /\ writes (trace l1) ++ map bytes (pending l1)
                   = writes (trace l) ++ map bytes (m :: rest)
                /\ (pool_ok l -> pool_ok l1)).
      { intros l1 ->.
        split; [repeat split | split; [reflexivity | now apply pool_ok_same_bufs]]. }
      unfold pending in Hrecv.
      destruct (quit l) eqn:Hq; try (injection Hs as <-; now apply Hrecv).
      destruct pick; injection Hs as <-; [now apply Hrecv|].
      rewrite (quit_case_nonempty l m rest) by assumption.
      rewrite Hpc, Hm.
      split; [repeat split | split; [reflexivity | trivial]].
  - injection Hs as <-. simpl. rewrite writes_app. simpl.
    rewrite <- app_assoc.
    split; [repeat split | split; [reflexivity | now apply pool_ok_same_bufs]].
  - injection Hs as <-.
    destruct (putBuf_fields l m) as (Hset & Hmsg & _ & _ & Htr).
    simpl. rewrite Hmsg, Htr.
    split; [exact Hset|]. split; [reflexivity|].
    intros Hok. apply (putBuf_pool_ok l m) in Hok.
    revert Hok. now apply pool_ok_same_bufs.
  - discriminate.
Qed.

(** While the quit channel is open, [run] does not leave its loop. *)
Lemma run_step_alive (pick : choice) l l' :
  run_step pick l = Some l' ->
  quit l = ChanOpen -> loop l' <> Exited /\ wg l' = wg l.
Proof.
  unfold run_step. intros Hs Hq. rewrite Hq in Hs.
  destruct (loop l) as [|m|m|] eqn:Hpc.
  - destruct (msg l) as [|m rest]; [discriminate|].
    injection Hs as <-. simpl. split; [discriminate | reflexivity].
  - injection Hs as <-. simpl. split; [discriminate | reflexivity].
  - injection Hs as <-. simpl.
    destruct (putBuf_fields l m) as (_ & _ & Hwg & _ & _).
    split; [discriminate | exact Hwg].
  - discriminate.
Qed.

(** [run] only takes buffers out of the queue. *)
Lemma run_step_queue (pick : choice) l l' :
  run_step pick l = Some l' ->
  (List.length (msg l') <= List.length (msg l))%nat.
Proof.
  unfold run_step. intros Hs.
  destruct (loop l) as [|m|m|] eqn:Hpc.
  - assert (Hquit : (List.length (msg (quit_case l))
                     <= List.length (msg l))%nat).
    { unfold quit_case. destruct (List.length (msg l) =? 0)%nat; simpl; lia. }
    destruct (msg l) as [|m rest] eqn:Hm.
    + destruct (quit l); try discriminate. injection Hs as <-. exact Hquit.
    + destruct (quit l); [| destruct pick |];
        injection Hs as <-; simpl; try lia; exact Hquit.
  - injection Hs as <-. simpl. lia.
  - injection Hs as <-. simpl.
    destruct (putBuf_fields l m) as (_ & Hmsg & _). rewrite Hmsg. lia.
  - discriminate.
Qed.

Lemma run_step_running (pick : choice) l l' :
  run_step pick l = Some l' -> running l -> running l'.
Proof.
  intros Hs (Hc & Hq & Hw & Hl & Hcap).
  destruct (run_step_keeps pick l l' Hs) as ((_ & _ & _ & Hc' & Hq') & _).
  destruct (run_step_alive pick l l' Hs Hq) as [Hl' Hw'].
  pose proof (run_step_queue pick l l' Hs) as Hlen.
  unfold running. repeat split; try congruence. lia.
Qed.

Lemma run_step_progress (pick : choice) l :
  quit l = ChanOpen -> loop l <> Exited ->
  match run_step pick l with
  | Some l' => S (steps_left l') = steps_left l
  | None => steps_left l = 0%nat /\ pending l = []
  end.
Proof.
  unfold run_step, steps_left, pending. intros Hq Hl. rewrite Hq.
  destruct (loop l) as [|m|m|] eqn:Hpc.
  - destruct (msg l) as [|m rest]; [split; reflexivity|].
    simpl. lia.
  - simpl. lia.
  - simpl. destruct (putBuf_fields l m) as (_ & Hmsg & _ & _ & _).
    rewrite Hmsg. lia.
  - congruence.
Qed.

(** Left alone with an open quit channel, [run] writes every buffer it
    owes, in order, and then waits. *)
Lemma run_settles (n : nat) : forall (sched : scheduler) l,
  quit l = ChanOpen -> loop l <> Exited ->
  (steps_left l <= n)%nat ->
  let l' := run n sched l in
  writes (trace l') = timeline l /\ pending l' = []
  /\ same_settings l l' /\ (running l -> running l')
  /\ (forall pick, run_step pick l' = None).
Proof.
  induction n as [|n IH]; intros sched l Hq Hl Hn.
  - pose proof (run_step_progress PickMsg l Hq Hl) as Hp.
    assert (forall pick, run_step pick l = None) as Hnone.
    { intros pick. pose proof (run_step_progress pick l Hq Hl) as Hp'.
      destruct (run_step pick l); [lia | reflexivity]. }
    rewrite (Hnone PickMsg) in Hp. destruct Hp as [_ Hp].
    simpl. unfold timeline. rewrite Hp. simpl. rewrite app_nil_r.
    split; [reflexivity|]. split; [reflexivity|].
    split; [apply same_settings_refl|]. split; [trivial | assumption].
  - simpl. pose proof (run_step_progress (sched O) l Hq Hl) as Hp.
    destruct (run_step (sched O) l) as [l1|] eqn:Hs.
    + destruct (run_step_keeps _ _ _ Hs) as (Hset & Htl & _).
      destruct (run_step_alive _ _ _ Hs Hq) as [Hl1 Hw1].
      assert (Hq1 : quit l1 = ChanOpen) by (destruct Hset as (_&_&_&_&E); congruence).
      destruct (IH (sched_tl sched) l1 Hq1 Hl1 ltac:(lia))
        as (A & B & C & D & E).
      split; [congruence|]. split; [assumption|].
      split; [eapply same_settings_trans; eassumption|].
      split; [|assumption].
      intros Hr. apply D. now apply (run_step_running _ _ _ Hs).
    + destruct Hp as [Hz Hp]. unfold timeline. rewrite Hp. simpl.
      rewrite app_nil_r.
      split; [reflexivity|]. split; [reflexivity|].
      split; [apply same_settings_refl|]. split; [trivial|].
      intros pick. pose proof (run_step_progress pick l Hq Hl) as Hp'.
      destruct (run_step pick l); [lia | reflexivity].
Qed.


(** ** Sending on the queue *)

Lemma msgCap_pos : (0 < msgCap)%nat.
Proof. unfold msgCap. lia. Qed.

Lemma chan_send_room (fuel : nat) (sched : scheduler) (buf : slice) l :
  (List.length (msg l) < msgCap)%nat ->
  chan_send fuel sched buf l = Ok (set_msg (msg l ++ [buf]) l).
Proof.
  intros Hlt.
  destruct fuel; simpl;
    now destruct (Nat.ltb_spec (List.length (msg l)) msgCap); [|lia].
Qed.

Lemma chan_send_full (fuel : nat) (sched : scheduler) (buf : slice) l l1 :
  (msgCap <= List.length (msg l))%nat ->
  run_step (sched O) l = Some l1 ->
  chan_send (S fuel) sched buf l = chan_send fuel (sched_tl sched) buf l1.
Proof.
  intros Hge Hs. simpl.
  destruct (Nat.ltb_spec (List.length (msg l)) msgCap); [lia|].
  now rewrite Hs.
Qed.

Lemma steps_to_room_le l : (steps_to_room l <= 3)%nat.
Proof.
  unfold steps_to_room.
  destruct (List.length (msg l) <? msgCap)%nat; [lia|].
  destruct (loop l); lia.
Qed.

Lemma run_step_makes_room (pick : choice) l :
  running l -> (msgCap <= List.length (msg l))%nat ->
  exists l1, run_step pick l = Some l1
             /\ (steps_to_room l1 < steps_to_room l)%nat.
Proof.
  intros (_ & Hq & _ & Hl & Hcap) Hfull.
  pose proof msgCap_pos as Hpos.
  unfold run_step, steps_to_room. rewrite Hq.
  destruct (Nat.ltb_spec (List.length (msg l)) msgCap) as [|_]; [lia|].
  destruct (loop l) as [|m|m|] eqn:Hpc.
  - destruct (msg l) as [|m rest] eqn:Hm; [simpl in Hfull; lia|].
    eexists. split; [reflexivity|]. simpl in *.
    destruct (Nat.ltb_spec (List.length rest) msgCap); lia.
  - eexists. split; [reflexivity|]. simpl.
    destruct (List.length (msg l) <? msgCap)%nat; lia.
  - eexists. split; [reflexivity|]. simpl.
    destruct (List.length (msg (putBuf m l)) <? msgCap)%nat; lia.
  - congruence.
Qed.

Lemma pending_enqueue l (buf : slice) :
  pending (set_msg (msg l ++ [buf]) l) = pending l ++ [buf].
Proof. unfold pending. simpl. now destruct (loop l). Qed.

(** On a running logger the send returns once [run] has made room, and the
    buffer is then the last one owed. *)
Lemma chan_send_running (fuel : nat) : forall (sched : scheduler) buf l,
  running l -> (steps_to_room l <= fuel)%nat ->
  exists l',
    chan_send fuel sched buf l = Ok l'
    /\ timeline l' = timeline l ++ [bytes buf]
    /\ same_settings l l'
    /\ running l'
    /\ (pool_ok l -> pool_ok l').
Proof.
  induction fuel as [|fuel IH]; intros sched buf l Hr Hfuel.
  - assert (Hroom : (List.length (msg l) < msgCap)%nat).
    { destruct (Nat.lt_ge_cases (List.length (msg l)) msgCap) as [|Hge];
        [assumption|].
      destruct (run_step_makes_room PickMsg l Hr Hge) as (l1 & _ & Hlt). lia. }
    rewrite chan_send_room by assumption.
    eexists. split; [reflexivity|].
    destruct Hr as (Hc & Hq & Hw & Hl & Hcap).
    split; [|split; [repeat split | split]].
    + unfold timeline. rewrite pending_enqueue, map_app, app_assoc.
      reflexivity.
    + unfold running. simpl. rewrite length_app. simpl.
      repeat split; auto. lia.
    + now apply pool_ok_same_bufs.
  - destruct (Nat.lt_ge_cases (List.length (msg l)) msgCap) as [Hroom|Hge].
    + rewrite chan_send_room by assumption.
      eexists. split; [reflexivity|].
      destruct Hr as (Hc & Hq & Hw & Hl & Hcap).
      split; [|split; [repeat split | split]].
      * unfold timeline. rewrite pending_enqueue, map_app, app_assoc.
        reflexivity.
      * unfold running. simpl. rewrite length_app. simpl.
        repeat split; auto. lia.
      * now apply pool_ok_same_bufs.
    + destruct (run_step_makes_room (sched O) l Hr Hge) as (l1 & Hs & Hlt).
      rewrite (chan_send_full fuel sched buf l l1 Hge Hs).
      destruct (run_step_keeps _ _ _ Hs) as (Hset & Htl & Hpool).
      pose proof (run_step_running _ _ _ Hs Hr) as Hr1.
      destruct (IH (sched_tl sched) buf l1 Hr1 ltac:(lia))
        as (l' & Hsend & Htl' & Hset' & Hr' & Hpool').
      exists l'. split; [assumption|].
      split; [congruence|].
      split; [eapply same_settings_trans; eassumption|].
      split; [assumption | auto].
Qed.

(** ** Output *)

Lemma popBuf_fields l :
  same_settings l (snd (popBuf l))
  /\ msg (snd (popBuf l)) = msg l /\ wg (snd (popBuf l)) = wg l
  /\ loop (snd (popBuf l)) = loop l /\ trace (snd (popBuf l)) = trace l.
Proof.
  unfold popBuf, same_settings.
  destruct (List.length (bufs l) =? 0)%nat; repeat split.
Qed.

Lemma popBuf_running l : running l -> running (snd (popBuf l)).
Proof.
  intros (Hc & Hq & Hw & Hl & Hcap).
  destruct (popBuf_fields l) as ((_ & _ & _ & Ec & Eq) & Em & Ew & El & _).
  unfold running. rewrite Ec, Eq, Em, Ew, El. repeat split; assumption.
Qed.

Lemma popBuf_timeline l : timeline (snd (popBuf l)) = timeline l.
Proof.
  destruct (popBuf_fields l) as (_ & Em & _ & El & Et).
  unfold timeline, pending. now rewrite Em, El, Et.
Qed.

Lemma Output_filtered g fuel sched e ln callDepth lv s l :
  Z.land (level l) lv <> lv ->
  Output g fuel sched e ln callDepth lv s l = Ok l.
Proof.
  intros Hne. unfold Output.
  now destruct (Z.eqb_spec (Z.land (level l) lv) lv).
Qed.

Lemma Output_enabled g fuel sched e ln callDepth lv s l :
  Z.land (level l) lv = lv ->
  Output g fuel sched e ln callDepth lv s l
  = chan_send fuel sched
      (render g e (snd (popBuf l)) ln callDepth lv s (fst (popBuf l)))
      (snd (popBuf l)).
Proof.
  intros He. unfold Output.
  destruct (Z.eqb_spec (Z.land (level l) lv) lv); [|contradiction].
  simpl negb. cbv iota. now destruct (popBuf l).
Qed.

(** An enabled [Output] on a running logger returns, and leaves exactly
    one more buffer owed: the record it rendered. *)
Lemma Output_running g fuel sched e ln callDepth lv s l :
  running l -> Z.land (level l) lv = lv -> (3 <= fuel)%nat ->
  exists l',
    Output g fuel sched e ln callDepth lv s l = Ok l'
    /\ timeline l'
       = timeline l
         ++ [bytes (render g e (snd (popBuf l)) ln callDepth lv s
                      (fst (popBuf l)))]
    /\ same_settings l l'
    /\ running l'
    /\ (pool_ok l -> pool_ok l').
Proof.
  intros Hr He Hfuel. rewrite Output_enabled by assumption.
  pose proof (popBuf_running l Hr) as Hr1.
  pose proof (steps_to_room_le (snd (popBuf l))) as Hle.
  destruct (chan_send_running fuel sched
              (render g e (snd (popBuf l)) ln callDepth lv s (fst (popBuf l)))
              (snd (popBuf l)) Hr1 ltac:(lia))
    as (l' & Hsend & Htl & Hset & Hr' & Hpool).
  exists l'. split; [assumption|].
  rewrite popBuf_timeline in Htl.
  split; [assumption|].
  split; [eapply same_settings_trans; [apply popBuf_fields | eassumption]|].
  split; [assumption|].
  intros Hok. apply Hpool. now apply popBuf_pool_ok.
Qed.

(** Whatever fuel it is given, a send that returns leaves the logger
    running and the pool in order. *)
Lemma chan_send_sound (fuel : nat) : forall (sched : scheduler) buf l l',
  chan_send fuel sched buf l = Ok l' ->
  running l -> running l' /\ (pool_ok l -> pool_ok l').
Proof.
  induction fuel as [|fuel IH]; intros sched buf l l' Hs Hr.
  - simpl in Hs.
    destruct (Nat.ltb_spec (List.length (msg l)) msgCap) as [Hlt|];
      [|discriminate].
    injection Hs as <-.
    destruct Hr as (Hc & Hq & Hw & Hl & Hcap).
    split; [|now apply pool_ok_same_bufs].
    unfold running. simpl. rewrite length_app. simpl.
    repeat split; auto. lia.
  - cbn [chan_send] in Hs.
    destruct (Nat.ltb_spec (List.length (msg l)) msgCap) as [Hlt|].
    + injection Hs as <-.
      destruct Hr as (Hc & Hq & Hw & Hl & Hcap).
      split; [|now apply pool_ok_same_bufs].
      unfold running. simpl. rewrite length_app. simpl.
      repeat split; auto. lia.
    + destruct (run_step (sched O) l) as [l1|] eqn:Hstep; [|discriminate].
      destruct (run_step_keeps _ _ _ Hstep) as (_ & _ & Hpool).
      pose proof (run_step_running _ _ _ Hstep Hr) as Hr1.
      destruct (IH _ _ _ _ Hs Hr1) as [Hr' Hpool'].
      split; [assumption | auto].
Qed.

(** Every logger reached before [Close] is running with its pool in
    order. *)
Lemma reachable_running_pool_ok g l :
  reachable g l -> running l /\ pool_ok l.
Proof.
  induction 1 as [h | pick l l' _ [Hr Hp] Hs
                 | fuel sched e ln callDepth lv s l l' _ [Hr Hp] Ho
                 | v l _ [Hr Hp]].
  - split.
    + unfold running, msgCap. simpl.
      repeat split; try reflexivity; try discriminate. lia.
    + split; simpl; [unfold maxBufPoolSize; lia | constructor].
  - split; [now apply (run_step_running pick l) |].
    now apply (run_step_keeps pick l l').
  - destruct (Z.eq_dec (Z.land (level l) lv) lv) as [He|Hne].
    + rewrite Output_enabled in Ho by assumption.
      destruct (chan_send_sound _ _ _ _ _ Ho (popBuf_running l Hr))
        as [Hr' Hp'].
      split; [assumption|]. apply Hp'. now apply popBuf_pool_ok.
    + rewrite Output_filtered in Ho by assumption.
      injection Ho as <-. now split.
  - split; [exact Hr | exact Hp].
Qed.

(** ** Shutdown *)

Lemma run_step_owed (pick : choice) l l' :
  run_step pick l = Some l' -> owed_trace l' = owed_trace l.
Proof.
  unfold run_step, owed_trace, pending.
  destruct (loop l) as [|m|m|] eqn:Hpc; intros Hs.
  - destruct (msg l) as [|m rest] eqn:Hm.
    + destruct (quit l); try discriminate.
      injection Hs as <-. rewrite quit_case_empty by assumption.
      simpl. now rewrite Hm.
    + destruct (quit l); [| destruct pick |]; injection Hs as <-;
        try reflexivity.
      rewrite (quit_case_nonempty l m rest) by assumption.
      now rewrite Hpc, Hm.
  - injection Hs as <-. simpl. now rewrite <- app_assoc.
  - injection Hs as <-.
    destruct (putBuf_fields l m) as (_ & Hmsg & _ & _ & Htr).
    simpl. now rewrite Hmsg, Htr.
  - discriminate.
Qed.

Lemma drained_step (pick : choice) l l1 l' :
  run_step pick l = Some l1 -> drained l1 l' -> drained l l'.
Proof.
  intros Hs (A & B & C & D & E & F & G).
  destruct (run_step_keeps _ _ _ Hs) as (Hset & _ & Hpool).
  pose proof (run_step_owed _ _ _ Hs) as Howed.
  unfold drained. split; [congruence|].
  split; [assumption|]. split; [assumption|]. split; [assumption|].
  split; [assumption|].
  split; [eapply same_settings_trans; eassumption | auto].
Qed.

(** A step of [run] while draining: it goes round the select without
    effect, or it advances, or it leaves the loop on an empty queue. *)
Lemma draining_step (pick : choice) l :
  draining l ->
  exists l1,
    run_step pick l = Some l1
    /\ ((l1 = l /\ pick = PickQuit)
        \/ ((steps_left l1 < steps_left l)%nat /\ draining l1)
        \/ drained l l1).
Proof.
  intros (Hq & Hw & Hl).
  unfold run_step, steps_left, draining. rewrite Hq.
  destruct (loop l) as [|m|m|] eqn:Hpc.
  - destruct (msg l) as [|m rest] eqn:Hm.
    + eexists. split; [reflexivity|]. right. right.
      rewrite quit_case_empty by assumption.
      unfold drained, owed_trace, pending. simpl.
      rewrite Hpc, Hm, Hw.
      repeat (split; [reflexivity|]).
      split; [repeat split | now apply pool_ok_same_bufs].
    + destruct pick.
      * eexists. split; [reflexivity|]. right. left. simpl.
        split; [lia|]. repeat split; auto. discriminate.
      * eexists. split; [reflexivity|]. left.
        split; [now apply quit_case_nonempty with m rest | reflexivity].
  - eexists. split; [reflexivity|]. right. left. simpl.
    split; [lia|]. repeat split; auto. discriminate.
  - eexists. split; [reflexivity|]. right. left. simpl.
    destruct (putBuf_fields l m) as ((_ & _ & _ & _ & Eq) & Hmsg & Ewg & _).
    rewrite Hmsg, Eq, Ewg.
    split; [lia|]. repeat split; auto. discriminate.
  - congruence.
Qed.

Lemma wg_Wait_done (fuel : nat) (sched : scheduler) l :
  wg l = 0%nat -> wg_Wait fuel sched l = Ok l.
Proof. intros E. destruct fuel; simpl; now rewrite E. Qed.

Lemma wg_Wait_step (fuel : nat) (sched : scheduler) l l1 :
  wg l = 1%nat -> run_step (sched O) l = Some l1 ->
  wg_Wait (S fuel) sched l = wg_Wait fuel (sched_tl sched) l1.
Proof. intros E Hs. simpl. now rewrite E, Hs. Qed.

Lemma wg_Wait_no_panic (fuel : nat) : forall (sched : scheduler) l,
  wg_Wait fuel sched l <> Panic.
Proof.
  induction fuel as [|fuel IH]; intros sched l; simpl;
    destruct (wg l =? 0)%nat; try discriminate.
  destruct (run_step (sched O) l); [apply IH | discriminate].
Qed.

Lemma wg_Wait_more (fuel : nat) : forall (sched : scheduler) l l',
  wg_Wait fuel sched l = Ok l' -> wg_Wait (S fuel) sched l = Ok l'.
Proof.
  induction fuel as [|fuel IH]; intros sched l l' Hw.
  - simpl in *. destruct (wg l =? 0)%nat; [assumption | discriminate].
  - cbn [wg_Wait] in Hw |- *.
    destruct (wg l =? 0)%nat; [assumption|].
    destruct (run_step (sched O) l) as [l1|]; [|discriminate].
    apply IH in Hw. exact Hw.
Qed.

Lemma wg_Wait_enough (fuel fuel' : nat) (sched : scheduler) l l' :
  wg_Wait fuel sched l = Ok l' -> (fuel <= fuel')%nat ->
  wg_Wait fuel' sched l = Ok l'.
Proof.
  intros Hw Hle. induction Hle as [|k _ IH]; [assumption|].
  now apply wg_Wait_more.
Qed.

(** Whatever the select picks, when the wait returns [run] has written
    exactly what it owed. *)
Lemma wg_Wait_sound (fuel : nat) : forall (sched : scheduler) l l',
  draining l -> wg_Wait fuel sched l = Ok l' -> drained l l'.
Proof.
  induction fuel as [|fuel IH]; intros sched l l' Hd Hw.
  - destruct Hd as (_ & E & _). simpl in Hw. rewrite E in Hw. discriminate.
  - destruct (draining_step (sched O) l Hd) as (l1 & Hs & Hcase).
    pose proof Hd as (_ & E & _).
    rewrite (wg_Wait_step fuel sched l l1 E Hs) in Hw.
    destruct Hcase as [[-> _] | [[_ Hd1] | Hdone]].
    + now apply (IH (sched_tl sched)).
    + apply (drained_step _ _ _ _ Hs). now apply (IH (sched_tl sched)).
    + pose proof Hdone as (_ & _ & _ & _ & E1 & _).
      rewrite wg_Wait_done in Hw by assumption. now injection Hw as <-.
Qed.

Lemma fair_tl (sched : scheduler) : fair sched -> fair (sched_tl sched).
Proof.
  intros Hf i. destruct (Hf (S i)) as [k Hk]. exists k. exact Hk.
Qed.

(** Under a fair select the wait returns. *)
Lemma wg_Wait_returns (n : nat) : forall (sched : scheduler) l,
  (steps_left l < n)%nat -> draining l -> fair sched ->
  exists fuel l', wg_Wait fuel sched l = Ok l'.
Proof.
  induction n as [|n IHn]; intros sched l Hn Hd Hf; [lia|].
  destruct (Hf O) as [k Hk]. simpl in Hk.
  revert sched Hf Hk.
  induction k as [|k IHk]; intros sched Hf Hk;
    destruct (draining_step (sched O) l Hd) as (l1 & Hs & Hcase);
    pose proof Hd as (_ & E & _);
    destruct Hcase as [[-> Hpick] | [[Hlt Hd1] | Hdone]].
  - congruence.
  - destruct (IHn (sched_tl sched) l1 ltac:(lia) Hd1 (fair_tl _ Hf))
      as (fuel & l' & Hw).
    exists (S fuel), l'. now rewrite (wg_Wait_step fuel sched l l1 E Hs).
  - exists 1%nat, l1. rewrite (wg_Wait_step 0 sched l l1 E Hs).
    apply wg_Wait_done. now destruct Hdone as (_ & _ & _ & _ & E1 & _).
  - destruct (IHk (sched_tl sched) (fair_tl _ Hf) Hk) as (fuel & l' & Hw).
    exists (S fuel), l'. now rewrite (wg_Wait_step fuel sched l l E Hs).
  - destruct (IHn (sched_tl sched) l1 ltac:(lia) Hd1 (fair_tl _ Hf))
      as (fuel & l' & Hw).
    exists (S fuel), l'. now rewrite (wg_Wait_step fuel sched l l1 E Hs).
  - exists 1%nat, l1. rewrite (wg_Wait_step 0 sched l l1 E Hs).
    apply wg_Wait_done. now destruct Hdone as (_ & _ & _ & _ & E1 & _).
Qed.

Lemma closing_draining l : running l -> draining (closing l).
Proof. intros (_ & _ & Hw & Hl & _). repeat split; assumption. Qed.

Lemma Close_running_unfold (fuel : nat) (sched : scheduler) l :
  running l ->
  Close fuel sched l
  = match wg_Wait fuel sched (closing l) with
    | Ok l1 => Ok (emit HandlerClose (set_quit ChanNil l1))
    | Panic => Panic
    | Pending => Pending
    end.
Proof.
  intros (Hc & Hq & _). unfold Close. rewrite Hc. simpl quit. now rewrite Hq.
Qed.

Lemma Close_sound (fuel : nat) (sched : scheduler) l l' :
  running l -> Close fuel sched l = Ok l' -> shut_down l l'.
Proof.
  intros Hr Hc. rewrite Close_running_unfold in Hc by assumption.
  destruct (wg_Wait fuel sched (closing l)) as [l1| |] eqn:Hw;
    try discriminate.
  injection Hc as <-.
  apply wg_Wait_sound in Hw; [|now apply closing_draining].
  destruct Hw as (A & B & C & D & E & (F1 & F2 & F3 & F4 & F5) & G).
  unfold owed_trace in A. rewrite B in A. simpl in A.
  rewrite app_nil_r in A.
  unfold shut_down. simpl.
  split.
  { rewrite A. unfold closing, pending. simpl.
    rewrite <- !app_assoc. reflexivity. }
  repeat (split; [assumption || reflexivity|]).
  intros Hok. apply (pool_ok_same_bufs l1); [reflexivity|].
  apply G. revert Hok. now apply pool_ok_same_bufs.
Qed.

Lemma Close_returns (sched : scheduler) l :
  running l -> fair sched ->
  exists fuel0 l',
    forall fuel, (fuel0 <= fuel)%nat -> Close fuel sched l = Ok l'.
Proof.
  intros Hr Hf.
  destruct (wg_Wait_returns (S (steps_left (closing l))) sched (closing l)
              ltac:(lia) (closing_draining l Hr) Hf) as (fuel0 & l1 & Hw).
  exists fuel0, (emit HandlerClose (set_quit ChanNil l1)).
  intros fuel Hle. rewrite Close_running_unfold by assumption.
  now rewrite (wg_Wait_enough fuel0 fuel sched (closing l) l1 Hw Hle).
Qed.

Lemma Close_closed (fuel : nat) (sched : scheduler) l :
  closed l = true -> Close fuel sched l = Ok l.
Proof. intros Hc. unfold Close. now rewrite Hc. Qed.

Lemma exited_no_step (pick : choice) l :
  loop l = Exited -> run_step pick l = None.
Proof. intros E. unfold run_step. now rewrite E. Qed.

End Dispatch.

(** C1. On a logger that has not been closed, with level mask L, a call of
    [Output] at severity S with [L & S = S] returns and makes the handler
    receive exactly one write more than it would have received without the
    call: once [run] has caught up, the writes are those made or owed
    before, then the rendered record.  With [L & S <> S] the call returns
    the logger as it was: no write, same pool, same queue.  [Debug],
    [Info], [Warn] and [Error] are [Output] at their severity. *)
Theorem Output_writes_once_iff_enabled {H : Type} (g : nat -> nat -> nat)
  (sched : scheduler) (e : Env) (ln : bool) (callDepth : Z)
  (lv : LogLever) (s : string) (l : Logger H) :
  running l ->
  (Z.land (level l) lv = lv ->
   forall fuel, (3 <= fuel)%nat ->
   exists l',
     Output g fuel sched e ln callDepth lv s l = Ok l'
     /\ exists n0, forall n, (n0 <= n)%nat ->
          writes (trace (run n sched l))
          = writes (trace l) ++ map bytes (pending l)
          /\ writes (trace (run n sched l'))
             = writes (trace (run n sched l))
               ++ [bytes (render g e l ln callDepth lv s (fst (popBuf l)))]
          /\ pending (run n sched l') = [])
  /\ (Z.land (level l) lv <> lv ->
      forall fuel,
        Output g fuel sched e ln callDepth lv s l = Ok l)
  /\ (forall fuel,
        Debug g fuel sched e s l
        = Output g fuel sched e false 2 LevelDebug s l
        /\ Info g fuel sched e s l
           = Output g fuel sched e false 2 LevelInfo s l
        /\ Warn g fuel sched e s l
           = Output g fuel sched e false 2 LevelWarn s l
        /\ Error g fuel sched e s l
           = Output g fuel sched e false 2 LevelError s l).
Proof.
  intros Hr. split; [|split].
  - intros He fuel Hfuel.
    destruct (Output_running g fuel sched e ln callDepth lv s l Hr He Hfuel)
      as (l' & Hout & Htl & _ & Hr' & _).
    exists l'. split; [exact Hout|].
    exists (Nat.max (steps_left l) (steps_left l')). intros n Hn.
    destruct Hr as (Hc & Hq & Hw & Hl & Hcap).
    destruct Hr' as (Hc' & Hq' & Hw' & Hl' & Hcap').
    destruct (run_settles n sched l Hq Hl ltac:(lia)) as (A & _).
    destruct (run_settles n sched l' Hq' Hl' ltac:(lia)) as (A' & B' & _).
    rewrite A, A', Htl. split; [reflexivity|]. split; [reflexivity|].
    exact B'.
  - intros Hne fuel. now apply Output_filtered.
  - intros fuel. repeat split.
Qed.

Lemma Close_times_closed {H} (n : nat) (fuel : nat) (sched : scheduler)
  (l : Logger H) :
  closed l = true -> Close_times n fuel sched l = Ok l.
Proof.
  intros Hc. induction n as [|n IH]; [reflexivity|].
  simpl. now rewrite Close_closed.
Qed.

Lemma handler_closes_app (t u : list event) :
  handler_closes (t ++ u) = (handler_closes t + handler_closes u)%nat.
Proof. unfold handler_closes. now rewrite filter_app, length_app. Qed.

Lemma quit_closes_app (t u : list event) :
  quit_closes (t ++ u) = (quit_closes t + quit_closes u)%nat.
Proof. unfold quit_closes. now rewrite filter_app, length_app. Qed.

Lemma closes_of_writes (ps : list (list byte)) :
  handler_closes (map HandlerWrite ps) = 0%nat
  /\ quit_closes (map HandlerWrite ps) = 0%nat.
Proof. induction ps as [|p ps IH]; [split; reflexivity | exact IH]. Qed.

Lemma shut_down_counts {H} (l l' : Logger H) :
  shut_down l l' ->
  handler_closes (trace l') = S (handler_closes (trace l))
  /\ quit_closes (trace l') = S (quit_closes (trace l))
  /\ writes (trace l') = writes (trace l) ++ map bytes (pending l).
Proof.
  intros (Ht & _). rewrite Ht.
  rewrite !handler_closes_app, !quit_closes_app, !writes_app.
  destruct (closes_of_writes (map bytes (pending l))) as [-> ->].
  rewrite writes_map_HandlerWrite. simpl.
  rewrite app_nil_r.
  split; [unfold handler_closes; simpl; lia|].
  split; [unfold quit_closes; simpl; lia | reflexivity].
Qed.

(** C2. On a logger that has not been closed and owes K buffers (the one
    [run] has received and not yet written, then the queue), whenever
    [Close] returns, the trace has grown by the closing of the quit
    channel, the K writes in queue order, and the closing of the handler,
    in this order; the queue is empty and [run] has returned, so that it
    makes no step and no write afterwards.  When the select is fair,
    [Close] does return. *)
Theorem Close_drains_queue {H : Type} (sched : scheduler) (l : Logger H) :
  running l ->
  (forall fuel l',
      Close fuel sched l = Ok l' ->
      trace l'
      = trace l ++ [QuitClose]
        ++ map HandlerWrite (map bytes (pending l)) ++ [HandlerClose]
      /\ writes (trace l') = writes (trace l) ++ map bytes (pending l)
      /\ List.length (writes (trace l'))
         = (List.length (writes (trace l)) + List.length (pending l))%nat
      /\ msg l' = [] /\ pending l' = [] /\ loop l' = Exited
      /\ (forall pick, run_step pick l' = None)
      /\ (forall n sched', run n sched' l' = l'))
  /\ (fair sched ->
      exists fuel0 l',
        forall fuel, (fuel0 <= fuel)%nat -> Close fuel sched l = Ok l').
Proof.
  intros Hr. split; [|now apply Close_returns].
  intros fuel l' Hc.
  pose proof (Close_sound fuel sched l l' Hr Hc) as Hsd.
  destruct (shut_down_counts l l' Hsd) as (_ & _ & Hwr).
  destruct Hsd as (Ht & _ & _ & Hl & Hm & _).
  split; [exact Ht|]. split; [exact Hwr|].
  split; [now rewrite Hwr, length_app, length_map|].
  split; [exact Hm|].
  split; [unfold pending; now rewrite Hl|].
  split; [exact Hl|].
  split; [intros pick; now apply exited_no_step|].
  intros n sched'. destruct n; [reflexivity|].
  simpl. now rewrite exited_no_step.
Qed.

(** C4. [Close] on a closed logger returns it unchanged.  On a logger that
    has not been closed, one call or several calls in a row give the same
    logger, in whose trace the handler has been closed once more and the
    quit channel once more than before; no call panics; and when the
    select is fair the calls return. *)
Theorem Close_idempotent {H : Type} (sched : scheduler) (n : nat)
  (l : Logger H) :
  running l ->
  (forall fuel (l0 : Logger H),
      closed l0 = true -> Close fuel sched l0 = Ok l0)
  /\ (forall fuel, Close_times (S n) fuel sched l <> Panic)
  /\ (forall fuel l',
         Close_times (S n) fuel sched l = Ok l' ->
         Close fuel sched l = Ok l'
         /\ closed l' = true
         /\ handler_closes (trace l') = S (handler_closes (trace l))
         /\ quit_closes (trace l') = S (quit_closes (trace l)))
  /\ (fair sched ->
      exists fuel0 l',
        forall fuel, (fuel0 <= fuel)%nat ->
          Close_times (S n) fuel sched l = Ok l').
Proof.
  intros Hr.
  assert (Hfirst : forall fuel,
             Close_times (S n) fuel sched l = Close fuel sched l
             /\ Close fuel sched l <> Panic).
  { intros fuel. simpl.
    destruct (Close fuel sched l) as [l1| |] eqn:Hc.
    - split; [|discriminate]. apply Close_times_closed.
      now destruct (Close_sound fuel sched l l1 Hr Hc) as (_ & Hcl & _).
    - exfalso. rewrite Close_running_unfold in Hc by assumption.
      destruct (wg_Wait fuel sched (closing l)) as [l1| |] eqn:Hw;
        try discriminate.
      now apply wg_Wait_no_panic in Hw.
    - split; [reflexivity | discriminate]. }
  split; [intros fuel l0; apply Close_closed|].
  split; [intros fuel; destruct (Hfirst fuel) as [-> Hnp]; exact Hnp|].
  split.
  - intros fuel l' Hc. destruct (Hfirst fuel) as [E _]. rewrite E in Hc.
    pose proof (Close_sound fuel sched l l' Hr Hc) as Hsd.
    destruct (shut_down_counts l l' Hsd) as (Hh & Hq & _).
    destruct Hsd as (_ & Hcl & _).
    repeat split; assumption.
  - intros Hf. destruct (Close_returns sched l Hr Hf) as (fuel0 & l' & Hret).
    exists fuel0, l'. intros fuel Hle.
    destruct (Hfirst fuel) as [-> _]. now apply Hret.
Qed.

(** ** The layout of a record *)

Lemma record_text_layout {H} (e : Env) (l : Logger H) ln callDepth lv s :
  record_text e l ln callDepth lv s
  = if ln
    then (String ESC "[1A" ++ spec_record_line e l callDepth lv s
          ++ String ESC "[K" ++ closing_newline s)%string
    else spec_record_text e l callDepth lv s.
Proof.
  unfold record_text, spec_record_text, spec_record_line.
  destruct ln; string_assoc; reflexivity.
Qed.

(** C5 (as the code has it). An enabled [Output] on a logger whose pool is
    in order sends a buffer holding, for [ln = false], the timestamp, a
    separator, the coloured label, a separator, the call site as
    [file:[line]], a separator and the message, then a newline exactly when
    the message is empty or does not end in one; for [ln = true] (the
    entry point [DebugLine]) the same line preceded by [ESC[1A] and
    followed by [ESC[K] before that newline. *)
Theorem Output_record_layout {H : Type} (g : nat -> nat -> nat)
  (fuel : nat) (sched : scheduler) (e : Env) (ln : bool) (callDepth : Z)
  (lv : LogLever) (s : string) (l : Logger H) :
  pool_ok l ->
  Z.land (level l) lv = lv ->
  exists record : slice,
    Output g fuel sched e ln callDepth lv s l
    = chan_send fuel sched record (snd (popBuf l))
    /\ bytes record
       = list_byte_of_string
           (if ln
            then (String ESC "[1A"
                  ++ (TimeNow e ++ " - "
                      ++ colorStart l lv ++ levelName lv ++ colorStop l lv
                      ++ " - "
                      ++ fst (call_site e callDepth) ++ ":["
                      ++ FormatInt (snd (call_site e callDepth)) ++ "] - "
                      ++ s)
                  ++ String ESC "[K"
                  ++ (match last_char s with
                      | Some c => if Ascii.eqb c LF then "" else String LF ""
                      | None => String LF ""
                      end))%string
            else (TimeNow e ++ " - "
                  ++ colorStart l lv ++ levelName lv ++ colorStop l lv
                  ++ " - "
                  ++ fst (call_site e callDepth) ++ ":["
                  ++ FormatInt (snd (call_site e callDepth)) ++ "] - "
                  ++ s
                  ++ (match last_char s with
                      | Some c => if Ascii.eqb c LF then "" else String LF ""
                      | None => String LF ""
                      end))%string)
    /\ (ln = false ->
        bytes record
        = list_byte_of_string (spec_record_text e l callDepth lv s)).
Proof.
  intros Hok He.
  exists (render g e (snd (popBuf l)) ln callDepth lv s (fst (popBuf l))).
  split; [now apply Output_enabled|].
  rewrite render_bytes, popBuf_zero_length by assumption.
  cbn [app].
  assert (Hl : record_text e (snd (popBuf l)) ln callDepth lv s
               = record_text e l ln callDepth lv s) by reflexivity.
  rewrite Hl, record_text_layout.
  split.
  - destruct ln; [reflexivity|].
    unfold spec_record_text, spec_record_line, closing_newline.
    string_assoc. reflexivity.
  - intros ->. reflexivity.
Qed.

(** C6. The colour codes depend on the severity alone: any two receivers
    give the same codes.  Info is wrapped in GREEN and NONE, Warn in
    YELLOW and NONE, Error in RED and NONE, Debug in nothing.  In a
    record the start code comes right before the label and the stop code
    right after it: the timestamp is before the start code, the call site
    and the message are after the stop code. *)
Theorem color_codes_wrap_label_only :
  (forall (H1 H2 : Type) (l1 : Logger H1) (l2 : Logger H2) (lv : LogLever),
      colorStart l1 lv = colorStart l2 lv
      /\ colorStop l1 lv = colorStop l2 lv)
  /\ (forall (H : Type) (l : Logger H),
         colorStart l LevelInfo = GREEN /\ colorStop l LevelInfo = NONE
         /\ colorStart l LevelWarn = YELLOW /\ colorStop l LevelWarn = NONE
         /\ colorStart l LevelError = RED /\ colorStop l LevelError = NONE
         /\ colorStart l LevelDebug = "" /\ colorStop l LevelDebug = "")
  /\ (GREEN = String ESC "[0;32;32m" /\ YELLOW = String ESC "[1;33m"
      /\ RED = String ESC "[0;32;31m" /\ NONE = String ESC "[m")
  /\ (forall (H : Type) (g : nat -> nat -> nat) (e : Env) (l : Logger H)
        (ln : bool) (callDepth : Z) (lv : LogLever) (s : string)
        (buf : slice),
         bytes (render g e l ln callDepth lv s buf)
         = bytes buf
           ++ list_byte_of_string
                ((if ln then String ESC "[1A" else "") ++ TimeNow e ++ " - ")
           ++ list_byte_of_string (colorStart l lv)
           ++ list_byte_of_string (levelName lv)
           ++ list_byte_of_string (colorStop l lv)
           ++ list_byte_of_string
                (" - " ++ fst (call_site e callDepth) ++ ":["
                 ++ FormatInt (snd (call_site e callDepth)) ++ "] - "
                 ++ s ++ (if ln then String ESC "[K" else "")
                 ++ closing_newline s)).
Proof.
  split; [intros; split; reflexivity|].
  split; [intros; repeat split; reflexivity|].
  split; [repeat split; reflexivity|].
  intros H g e l ln callDepth lv s buf.
  rewrite render_bytes. unfold record_text.
  rewrite <- !list_byte_of_string_app.
  string_assoc. reflexivity.
Qed.

(** ** Call sites *)

Lemma substring_whole (s : string) : substring 0 (String.length s) s = s.
Proof. induction s as [|c s IH]; simpl; [reflexivity | now rewrite IH]. Qed.

Lemma substring_after (a b : string) :
  substring (String.length a) (String.length b) (a ++ b) = b.
Proof.
  induction a as [|c a IH]; simpl; [apply substring_whole | exact IH].
Qed.

Lemma get_after (a b : string) (k : nat) :
  String.get (String.length a + k) (a ++ b) = String.get k b.
Proof.
  rewrite Nat.add_comm. symmetry. apply append_correct2.
Qed.

Lemma length_string_app (a b : string) :
  String.length (a ++ b) = (String.length a + String.length b)%nat.
Proof. induction a as [|c a IH]; simpl; [reflexivity | now rewrite IH]. Qed.

(** A path with a directory part: the loop stops at the last slash and
    keeps what follows it. *)
Lemma shorten_final_segment (dir base : string) :
  dir <> "" ->
  (forall i, String.get i base <> Some "/"%char) ->
  shorten (dir ++ String "/" base) = base.
Proof.
  intros Hdir Hbase.
  set (file := (dir ++ String "/" base)%string).
  assert (Hlen : String.length file
                 = (String.length dir + S (String.length base))%nat).
  { unfold file. now rewrite length_string_app. }
  assert (Hpos : String.length dir <> 0%nat).
  { destruct dir; [congruence | discriminate]. }
  assert (Hloop : forall k, (k <= String.length base)%nat ->
             forall i, i = (String.length dir + k)%nat ->
                       shorten_from file i = base).
  { induction k as [|k IH]; intros Hk i Hi.
    - rewrite Nat.add_0_r in Hi.
      destruct i as [|j]; [congruence|].
      cbn [shorten_from]. rewrite Hi, Hlen.
      replace (String.get (String.length dir) file) with (Some "/"%char).
      2:{ unfold file. rewrite <- (Nat.add_0_r (String.length dir)).
          now rewrite get_after. }
      cbn [Ascii.eqb Bool.eqb andb].
      replace (String.length dir + S (String.length base)
               - (String.length dir + 1))%nat
        with (String.length base) by lia.
      unfold file.
      replace (dir ++ String "/" base)%string
        with ((dir ++ "/") ++ base)%string
        by (now rewrite string_app_assoc).
      replace (String.length dir + 1)%nat
        with (String.length (dir ++ "/")%string)
        by (rewrite length_string_app; reflexivity).
      apply substring_after.
    - rewrite Nat.add_succ_r in Hi. subst i. cbn [shorten_from].
      replace (String.get (S (String.length dir + k)) file)
        with (String.get k base).
      2:{ unfold file. rewrite <- Nat.add_succ_r, get_after. reflexivity. }
      pose proof (Hbase k) as Hc.
      destruct (String.get k base) as [c|].
      + destruct (Ascii.eqb_spec c "/"%char) as [->|_]; [congruence|].
        apply IH; [lia | reflexivity].
      + apply IH; [lia | reflexivity]. }
  unfold shorten. rewrite Hlen.
  replace (String.length dir + S (String.length base) - 1)%nat
    with (String.length dir + String.length base)%nat by lia.
  now apply (Hloop (String.length base)).
Qed.

(** A path whose only slash is its first byte: the loop stops above
    index 0 and finds none, the path is kept whole. *)
Lemma shorten_from_none (file : string) (i : nat) :
  (forall j, (1 <= j <= i)%nat -> String.get j file <> Some "/"%char) ->
  shorten_from file i = file.
Proof.
  induction i as [|i IH]; intros Hno; [reflexivity|].
  cbn [shorten_from].
  pose proof (Hno (S i) ltac:(lia)) as Hc.
  destruct (String.get (S i) file) as [c|].
  - destruct (Ascii.eqb_spec c "/"%char) as [->|_]; [congruence|].
    apply IH. intros j Hj. apply Hno. lia.
  - apply IH. intros j Hj. apply Hno. lia.
Qed.

Lemma shorten_root_file (base : string) :
  (forall i, String.get i base <> Some "/"%char) ->
  shorten (String "/" base) = String "/" base.
Proof.
  intros Hbase. unfold shorten. apply shorten_from_none.
  intros j Hj. destruct j as [|j]; [lia|]. simpl. apply Hbase.
Qed.

(** When the stack cannot be resolved the call site is [???:[0]]. *)
Lemma call_site_unresolved (e : Env) (callDepth : Z) :
  Caller e callDepth = None -> call_site e callDepth = ("???", 0).
Proof. intros E. unfold call_site. now rewrite E. Qed.

(** C7 (the code at the failing input). For a source file in the root
    directory, [/main.go], the loop stops before index 0 and never looks at
    the only slash: the call site keeps the whole path, and the record of
    an [Info] call reads [/main.go:[7]] where the final path segment is
    [main.go]. *)
Theorem Output_root_file_keeps_slash :
  let e := mkEnv "2024/01/02 03:04:05"
                 (fun _ : Z => Some ("/main.go", 7)) in
  shorten "/main.go" = "/main.go"
  /\ shorten "/main.go" <> "main.go"
  /\ call_site e 2 = ("/main.go", 7)
  /\ exists l' : Logger unit,
       Info Nat.max 3 (fun _ => PickMsg) e "up" (New tt) = Ok l'
       /\ map bytes (msg l')
          = [list_byte_of_string
               ("2024/01/02 03:04:05 - " ++ GREEN ++ "INFO" ++ NONE
                ++ " - /main.go:[7] - up" ++ String LF "")].
Proof.
  cbv zeta.
  split; [reflexivity|].
  split; [discriminate|].
  split; [reflexivity|].
  eexists. split; reflexivity.
Qed.

(** ** The default logger *)

(** [SetLogFile] starts by closing the default logger it finds. *)
Lemma SetLogFile_closes_previous {H : Type}
  (ctor : string -> Z -> Z -> H + string) (std : H) (whenDay : Z)
  (fuel : nat) (sched : scheduler) (logFile : string)
  (l : Logger H) (out : list string) (w' : World H) :
  SetLogFile ctor std whenDay fuel sched logFile (mkWorld (Some l) out)
  = Ok w' ->
  exists l1, Close fuel sched l = Ok l1
             /\ (defLoger w' = Some l1
                 \/ exists h, defLoger w' = Some (New h)).
Proof.
  unfold SetLogFile. simpl.
  destruct (Close fuel sched l) as [l1| |]; try discriminate.
  intros Hs. exists l1. split; [reflexivity|].
  destruct (negb (String.length logFile =? 0)%nat).
  - destruct (ctor logFile whenDay 1) as [h|err]; injection Hs as <-.
    + right. now exists h.
    + left. reflexivity.
  - injection Hs as <-. right. now exists std.
Qed.

(** When the rotating handler cannot be made, the default logger stays the
    one that was just closed. *)
Lemma SetLogFile_failure {H : Type}
  (ctor : string -> Z -> Z -> H + string) (std : H) (whenDay : Z)
  (fuel : nat) (sched : scheduler) (logFile err : string)
  (l : Logger H) (out : list string) (w' : World H) :
  running l ->
  logFile <> "" ->
  ctor logFile whenDay 1 = inr err ->
  SetLogFile ctor std whenDay fuel sched logFile (mkWorld (Some l) out)
  = Ok w' ->
  exists l1, defLoger w' = Some l1 /\ closed l1 = true /\ loop l1 = Exited
             /\ stdout w' = out ++ [err].
Proof.
  intros Hr Hname Hctor. unfold SetLogFile. simpl.
  destruct (Close fuel sched l) as [l1| |] eqn:Hc; try discriminate.
  destruct logFile as [|c rest]; [congruence|].
  simpl. rewrite Hctor. intros Hs. injection Hs as <-.
  destruct (Close_sound fuel sched l l1 Hr Hc) as (_ & Hcl & _ & Hl & _).
  exists l1. repeat split; assumption.
Qed.

(** C8 (the code at the failing input). With a rotating handler that
    cannot be made for [/nonexistent/app.log], [SetLogFile] closes the
    default logger, prints the error and returns: the default logger is
    the closed one, whose goroutine has returned.  An [Info] sent to it
    afterwards is queued and never written. *)
Theorem SetLogFile_failure_leaves_closed_logger :
  let ctor := fun (name : string) (_ _ : Z) =>
                @inr string string "open /nonexistent/app.log: no such file" in
  let sched := fun _ : nat => PickMsg in
  let e := mkEnv "2024/01/02 03:04:05"
                 (fun _ : Z => Some ("/src/app/main.go", 42)) in
  let w0 := mkWorld (Some (NewDefault "stdout")) [] in
  exists l1 : Logger string,
    Close 1 sched (NewDefault "stdout") = Ok l1
    /\ SetLogFile ctor "stdout" 0 1 sched "/nonexistent/app.log" w0
       = Ok (mkWorld (Some l1) ["open /nonexistent/app.log: no such file"])
    /\ closed l1 = true /\ loop l1 = Exited /\ quit l1 = ChanNil
    /\ trace l1 = [QuitClose; HandlerClose]
    /\ exists l2 : Logger string,
         DefaultInfo Nat.max 3 sched e "still here" (mkWorld (Some l1) [])
         = Ok (mkWorld (Some l2) [])
         /\ List.length (msg l2) = 1%nat
         /\ forall n, run n sched l2 = l2 /\ writes (trace l2) = [].
Proof.
  cbv zeta. eexists. split; [reflexivity|].
  split; [reflexivity|].
  repeat (split; [reflexivity|]).
  eexists. split; [reflexivity|]. split; [reflexivity|].
  intros n. split; [|reflexivity].
  destruct n; reflexivity.
Qed.

(** C9. [New] sets the level mask to [LevelInfo], which is 1.  A logger
    whose level is still that one, and that has not been closed, accepts
    an [Info] record, which becomes the last buffer owed to the handler,
    and returns unchanged from [Debug], [Warn] and [Error]. *)
Theorem New_level_is_Info {H : Type} (g : nat -> nat -> nat)
  (sched : scheduler) (e : Env) (s : string) (h : H) (l : Logger H) :
  level l = level (New h) ->
  running l ->
  level (New h) = LevelInfo /\ LevelInfo = 1 /\ running (New h)
  /\ (forall fuel, (3 <= fuel)%nat ->
      exists l',
        Info g fuel sched e s l = Ok l'
        /\ level l' = level l
        /\ writes (trace l') ++ map bytes (pending l')
           = (writes (trace l) ++ map bytes (pending l))
             ++ [bytes (render g e l false 2 LevelInfo s (fst (popBuf l)))])
  /\ (forall fuel,
        Debug g fuel sched e s l = Ok l
        /\ Warn g fuel sched e s l = Ok l
        /\ Error g fuel sched e s l = Ok l).
Proof.
  intros Hlv Hr. simpl in Hlv.
  split; [reflexivity|]. split; [reflexivity|].
  split.
  { unfold running, msgCap. simpl. repeat split; try discriminate; lia. }
  split.
  - intros fuel Hfuel.
    destruct (Output_running g fuel sched e false 2 LevelInfo s l Hr
                ltac:(rewrite Hlv; reflexivity) Hfuel)
      as (l' & Hout & Htl & (Hlevel & _) & _).
    exists l'. split; [exact Hout|]. split; [exact Hlevel|]. exact Htl.
  - intros fuel. unfold Debug, Warn, Error.
    repeat split; apply Output_filtered; rewrite Hlv; discriminate.
Qed.

(** ** The properties on sample inputs *)

Lemma eager_fair : fair eager.
Proof. intros i. exists 0%nat. reflexivity. Defined.

Lemma busy_logger_running : running busy_logger.
Proof.
  unfold running, msgCap. simpl.
  repeat split; try reflexivity; try discriminate; lia.
Defined.

Lemma busy_logger_pool_ok : pool_ok busy_logger.
Proof.
  unfold pool_ok, maxBufPoolSize. simpl.
  split; [lia | repeat constructor].
Defined.

Lemma Output_writes_once_iff_enabled_witness :
  running busy_logger
  /\ (exists l',
         Output Nat.max 3 eager sample_env false 2 LevelWarn "disk full"
                busy_logger = Ok l'
         /\ exists n0, forall n, (n0 <= n)%nat ->
              writes (trace (run n eager l'))
              = writes (trace (run n eager busy_logger))
                ++ [bytes (render Nat.max sample_env busy_logger false 2
                             LevelWarn "disk full"
                             (fst (popBuf busy_logger)))])
  /\ (forall fuel,
         Output Nat.max fuel eager sample_env false 2 16 "disk full"
                busy_logger = Ok busy_logger).
Proof.
  split; [exact busy_logger_running|].
  destruct (Output_writes_once_iff_enabled Nat.max eager sample_env false 2
              LevelWarn "disk full" busy_logger busy_logger_running)
    as (Hon & _ & _).
  destruct (Output_writes_once_iff_enabled Nat.max eager sample_env false 2
              16 "disk full" busy_logger busy_logger_running)
    as (_ & Hoff & _).
  split.
  - destruct (Hon eq_refl 3%nat (le_n 3)) as (l' & Hout & n0 & Hn).
    exists l'. split; [exact Hout|]. exists n0. intros n Hle.
    exact (proj1 (proj2 (Hn n Hle))).
  - apply Hoff. discriminate.
Defined.

Lemma Close_drains_queue_witness :
  running busy_logger
  /\ (forall fuel l',
         Close fuel eager busy_logger = Ok l' ->
         writes (trace l')
         = [list_byte_of_string "first"; list_byte_of_string "second";
            list_byte_of_string "third"]
         /\ loop l' = Exited)
  /\ exists fuel0 l',
       forall fuel, (fuel0 <= fuel)%nat ->
                    Close fuel eager busy_logger = Ok l'.
Proof.
  split; [exact busy_logger_running|].
  destruct (Close_drains_queue eager busy_logger busy_logger_running)
    as (Hsound & Hret).
  split.
  - intros fuel l' Hc.
    destruct (Hsound fuel l' Hc) as (_ & Hw & _ & _ & _ & Hl & _).
    split; [exact Hw | exact Hl].
  - exact (Hret eager_fair).
Defined.

Lemma pool_invariant_witness :
  pool_ok busy_logger
  /\ pool_ok (snd (popBuf busy_logger))
  /\ bytes (fst (popBuf busy_logger)) = []
  /\ pool_ok (putBuf (mkSlice (list_byte_of_string "first") 1024)
                (snd (popBuf busy_logger))).
Proof.
  split; [exact busy_logger_pool_ok|].
  destruct (pool_invariant busy_logger busy_logger_pool_ok)
    as (_ & Hpop & Hzero & _).
  split; [exact Hpop|]. split; [exact Hzero|].
  destruct (pool_invariant (snd (popBuf busy_logger)) Hpop)
    as (_ & _ & _ & _ & _ & Hput).
  exact (proj1 (Hput (mkSlice (list_byte_of_string "first") 1024))).
Defined.

Lemma Close_idempotent_witness :
  running busy_logger
  /\ (forall fuel l',
         Close_times 3 fuel eager busy_logger = Ok l' ->
         handler_closes (trace l') = 1%nat
         /\ quit_closes (trace l') = 1%nat)
  /\ exists fuel0 l',
       forall fuel, (fuel0 <= fuel)%nat ->
                    Close_times 3 fuel eager busy_logger = Ok l'.
Proof.
  split; [exact busy_logger_running|].
  destruct (Close_idempotent eager 2 busy_logger busy_logger_running)
    as (_ & _ & Hcount & Hret).
  split.
  - intros fuel l' Hc.
    destruct (Hcount fuel l' Hc) as (_ & _ & Hh & Hq).
    split; [exact Hh | exact Hq].
  - exact (Hret eager_fair).
Defined.

Lemma Output_record_layout_witness :
  pool_ok busy_logger
  /\ Z.land (level busy_logger) LevelWarn = LevelWarn
  /\ exists record : slice,
       Output Nat.max 3 eager sample_env false 2 LevelWarn "disk full"
              busy_logger
       = chan_send 3 eager record (snd (popBuf busy_logger))
       /\ bytes record
          = list_byte_of_string
              ("2024/01/02 03:04:05 - " ++ YELLOW ++ "WARN" ++ NONE
               ++ " - main.go:[42] - disk full" ++ String LF "").
Proof.
  split; [exact busy_logger_pool_ok|]. split; [reflexivity|].
  destruct (Output_record_layout Nat.max 3 eager sample_env false 2
              LevelWarn "disk full" busy_logger busy_logger_pool_ok eq_refl)
    as (record & Hout & Hbytes & _).
  exists record. split; [exact Hout | exact Hbytes].
Defined.

(** C5 (as the specification has it) fails for [DebugLine]: with
    [ln = true] the record starts with [ESC[1A] and has [ESC[K] between
    the message and the newline. *)
Lemma DebugLine_record_differs :
  exists l' : Logger unit,
    Output Nat.max 3 eager sample_env true 2 LevelDebug "tick"
           (SetLevel LevelAll (New tt)) = Ok l'
    /\ map bytes (msg l')
       = [list_byte_of_string
            (String ESC "[1A"
             ++ "2024/01/02 03:04:05 - DEBUG - main.go:[42] - tick"
             ++ String ESC "[K" ++ String LF "")]
    /\ map bytes (msg l')
       <> [list_byte_of_string
             (spec_record_text sample_env (SetLevel LevelAll (New tt)) 2
                               LevelDebug "tick")].
Proof.
  eexists. split; [reflexivity|]. split; [reflexivity|]. discriminate.
Qed.

Lemma New_level_is_Info_witness :
  level (New tt) = level (New tt)
  /\ running (New tt)
  /\ (exists l',
         Info Nat.max 3 eager sample_env "ready" (New tt) = Ok l'
         /\ level l' = level (New tt))
  /\ Debug Nat.max 3 eager sample_env "ready" (New tt) = Ok (New tt)
  /\ Warn Nat.max 3 eager sample_env "ready" (New tt) = Ok (New tt)
  /\ Error Nat.max 3 eager sample_env "ready" (New tt) = Ok (New tt).
Proof.
  assert (Hr : running (New tt)).
  { unfold running, msgCap. simpl.
    repeat split; try reflexivity; try discriminate; lia. }
  split; [reflexivity|]. split; [exact Hr|].
  destruct (New_level_is_Info Nat.max eager sample_env "ready" tt (New tt)
              eq_refl Hr) as (_ & _ & _ & Hinfo & Hrest).
  split.
  - destruct (Hinfo 3%nat (le_n 3)) as (l' & Hout & Hlv & _).
    exists l'. split; [exact Hout | exact Hlv].
  - exact (Hrest 3%nat).
Defined.

(** * Further properties of the logger *)

(** ** The level filter *)

Lemma land_eq_iff_bits (mask lv : Z) :
  Z.land mask lv = lv
  <-> (forall i, 0 <= i -> Z.testbit lv i = true -> Z.testbit mask i = true).
Proof.
  split.
  - intros E i Hi Hb. rewrite <- E, Z.land_spec in Hb.
    now apply andb_true_iff in Hb.
  - intros Hall. apply Z.bits_inj'. intros i Hi. rewrite Z.land_spec.
    destruct (Z.testbit lv i) eqn:Hb; [|apply andb_false_r].
    now rewrite (Hall i Hi Hb).
Qed.

Lemma land_LevelAll (lv : Z) : Z.land LevelAll lv = lv <-> 0 <= lv <= 15.
Proof.
  change LevelAll with (Z.ones 4).
  rewrite Z.land_comm, Z.land_ones by lia.
  change (2 ^ 4) with 16. split.
  - intros E. pose proof (Z.mod_pos_bound lv 16 ltac:(lia)). lia.
  - intros Hr. apply Z.mod_small. lia.
Qed.

(** X1. [Output] lets a record through exactly when every bit of its
    severity is set in the level mask: with all of them set the call goes
    on to send the rendered record, with one of them missing it returns
    the logger unchanged.  Under [LevelAll] the severities let through are
    exactly 0 to 15. *)
Theorem Output_filter_is_bit_inclusion {H : Type} (g : nat -> nat -> nat)
  (fuel : nat) (sched : scheduler) (e : Env) (ln : bool) (callDepth : Z)
  (lv : LogLever) (s : string) (l : Logger H) :
  ((forall i, 0 <= i -> Z.testbit lv i = true ->
              Z.testbit (level l) i = true) ->
   Output g fuel sched e ln callDepth lv s l
   = chan_send fuel sched
       (render g e l ln callDepth lv s (fst (popBuf l))) (snd (popBuf l)))
  /\ (forall i, 0 <= i -> Z.testbit lv i = true ->
                Z.testbit (level l) i = false ->
                Output g fuel sched e ln callDepth lv s l = Ok l)
  /\ (level l = LevelAll ->
      (0 <= lv <= 15 ->
       Output g fuel sched e ln callDepth lv s l
       = chan_send fuel sched
           (render g e l ln callDepth lv s (fst (popBuf l)))
           (snd (popBuf l)))
      /\ (lv < 0 \/ 15 < lv ->
          Output g fuel sched e ln callDepth lv s l = Ok l)).
Proof.
  split; [|split].
  - intros Hall. apply Output_enabled. now apply land_eq_iff_bits.
  - intros i Hi Hb Hm. apply Output_filtered. intros E.
    rewrite land_eq_iff_bits in E. rewrite (E i Hi Hb) in Hm. discriminate.
  - intros Hl. split.
    + intros Hr. apply Output_enabled. rewrite Hl. now apply land_LevelAll.
    + intros Hr. apply Output_filtered. rewrite Hl, land_LevelAll. lia.
Qed.

(** ** Round trips through the pool *)

Lemma set_bufs_same {H} (l : Logger H) : set_bufs (bufs l) l = l.
Proof. now destruct l. Qed.

Lemma set_bufs_twice {H} (l : Logger H) (a b : list slice) :
  set_bufs a (set_bufs b l) = set_bufs a l.
Proof. reflexivity. Qed.

(** X2. A buffer released into a pool with room is the next one acquired:
    it comes back with length zero and the capacity it had, and the logger
    is as it was before the release.  Released into a full pool it is
    dropped: the next acquire is what it would have been without the
    release. *)
Theorem putBuf_then_popBuf {H : Type} (buf : slice) (l : Logger H) :
  ((List.length (bufs l) < maxBufPoolSize)%nat ->
   popBuf (putBuf buf l) = (mkSlice [] (cap buf), l))
  /\ ((maxBufPoolSize <= List.length (bufs l))%nat ->
      popBuf (putBuf buf l) = popBuf l).
Proof.
  split; intros Hlen.
  - rewrite putBuf_room by assumption.
    rewrite (popBuf_last (set_bufs (bufs l ++ [reslice0 buf]) l)
               (bufs l) (reslice0 buf)) by reflexivity.
    now rewrite set_bufs_twice, set_bufs_same.
  - now rewrite putBuf_full.
Qed.

(** X3. On a logger whose pool is in order and not empty, releasing the
    buffer just acquired gives the logger back as it was.  On an empty
    pool the acquire allocates, and the release leaves that one buffer of
    capacity 1024 in the pool. *)
Theorem popBuf_then_putBuf {H : Type} (l : Logger H) :
  pool_ok l ->
  (bufs l <> [] -> putBuf (fst (popBuf l)) (snd (popBuf l)) = l)
  /\ (bufs l = [] ->
      putBuf (fst (popBuf l)) (snd (popBuf l))
      = set_bufs [mkSlice [] 1024] l).
Proof.
  intros [Hlen Hall]. split; intros Hb.
  - destruct (exists_last Hb) as (held & b & E).
    rewrite (popBuf_last l held b E). cbn [fst snd].
    rewrite E, length_app in Hlen. simpl in Hlen.
    rewrite E in Hall. apply Forall_app in Hall as [_ Hzero].
    inversion Hzero as [|? ? Hz _]; subst.
    rewrite putBuf_room by (simpl; lia). simpl bufs.
    rewrite set_bufs_twice.
    replace (reslice0 b) with b by (destruct b; simpl in Hz; now subst).
    now rewrite <- E, set_bufs_same.
  - rewrite popBuf_empty by assumption. cbn [fst snd].
    rewrite putBuf_room by (rewrite Hb; unfold maxBufPoolSize; simpl; lia).
    now rewrite Hb.
Qed.

(** ** Calls in a row *)

Lemma Output_running_record {H} g fuel sched e ln callDepth lv s
  (l : Logger H) :
  running l -> pool_ok l -> Z.land (level l) lv = lv -> (3 <= fuel)%nat ->
  exists l',
    Output g fuel sched e ln callDepth lv s l = Ok l'
    /\ timeline l'
       = timeline l
         ++ [list_byte_of_string (record_text e l ln callDepth lv s)]
    /\ level l' = level l /\ running l' /\ pool_ok l'.
Proof.
  intros Hr Hp He Hfuel.
  destruct (Output_running g fuel sched e ln callDepth lv s l Hr He Hfuel)
    as (l' & Hout & Htl & (Hlv & _) & Hr' & Hp').
  exists l'. split; [exact Hout|].
  rewrite render_bytes, popBuf_zero_length in Htl by assumption.
  split; [exact Htl|]. split; [exact Hlv|]. split; [exact Hr' | auto].
Qed.

(** X4. Calls of [Output] made one after the other on a logger that has
    not been closed all return; the level and the invariants are kept; and
    once [run] has caught up the handler has received, after what it was
    owed before, the records of the calls the level lets through, each
    once, in the order of the calls, and nothing for the others. *)
Theorem Output_all_in_order {H : Type} (g : nat -> nat -> nat) (fuel : nat)
  (sched : scheduler) (cs : list call) (l : Logger H) :
  running l -> pool_ok l -> (3 <= fuel)%nat ->
  exists l',
    Output_all g fuel sched cs l = Ok l'
    /\ running l' /\ pool_ok l' /\ level l' = level l
    /\ forall n sched', (steps_left l' <= n)%nat ->
         writes (trace (run n sched' l'))
         = writes (trace l) ++ map bytes (pending l)
           ++ map (call_record l) (filter (enabled_call (level l)) cs).
Proof.
  intros Hr Hp Hfuel.
  assert (Hgen : exists l',
             Output_all g fuel sched cs l = Ok l'
             /\ running l' /\ pool_ok l' /\ level l' = level l
             /\ timeline l'
                = timeline l
                  ++ map (call_record l) (filter (enabled_call (level l)) cs)).
  { revert l Hr Hp. induction cs as [|c rest IH]; intros l Hr Hp.
    - exists l. simpl. rewrite app_nil_r.
      split; [reflexivity|]. split; [exact Hr|]. split; [exact Hp|].
      split; reflexivity.
    - cbn [Output_all filter]. unfold enabled_call at 1.
      destruct (Z.eqb_spec (Z.land (level l) (call_level c)) (call_level c))
        as [He|Hne].
      + destruct (Output_running_record g fuel sched (call_env c) (call_ln c)
                    (call_depth c) (call_level c) (call_text c) l
                    Hr Hp He Hfuel)
          as (l1 & Hout & Htl & Hlv & Hr1 & Hp1).
        rewrite Hout.
        destruct (IH l1 Hr1 Hp1) as (l' & Hall & Hr' & Hp' & Hlv' & Htl').
        exists l'. split; [exact Hall|]. split; [exact Hr'|].
        split; [exact Hp'|]. split; [congruence|].
        rewrite Htl', Htl, Hlv. cbn [map]. rewrite <- app_assoc.
        reflexivity.
      + rewrite Output_filtered by assumption.
        destruct (IH l Hr Hp) as (l' & Hall & Hr' & Hp' & Hlv' & Htl').
        exists l'. split; [exact Hall|]. split; [exact Hr'|].
        split; [exact Hp'|]. split; [exact Hlv' | exact Htl']. }
  destruct Hgen as (l' & Hall & Hr' & Hp' & Hlv & Htl).
  exists l'. split; [exact Hall|]. split; [exact Hr'|].
  split; [exact Hp'|]. split; [exact Hlv|].
  intros n sched' Hn.
  pose proof Hr' as (_ & Hq & _ & Hl & _).
  destruct (run_settles n sched' l' Hq Hl Hn) as (A & _).
  rewrite A, Htl. unfold timeline. now rewrite <- app_assoc.
Qed.

(** ** After the goroutine has returned *)

Lemma Output_exited {H} g fuel sched e ln callDepth lv s (l : Logger H) :
  loop l = Exited -> Z.land (level l) lv = lv ->
  ((List.length (msg l) < msgCap)%nat ->
   exists l',
     Output g fuel sched e ln callDepth lv s l = Ok l'
     /\ trace l' = trace l /\ loop l' = Exited /\ level l' = level l
     /\ List.length (msg l') = S (List.length (msg l)))
  /\ ((msgCap <= List.length (msg l))%nat ->
      Output g fuel sched e ln callDepth lv s l = Pending).
Proof.
  intros Hl He. rewrite Output_enabled by assumption.
  destruct (popBuf_fields l) as ((Elv & _) & Em & _ & El & Et).
  split; intros Hlen.
  - rewrite chan_send_room by (rewrite Em; exact Hlen).
    eexists. split; [reflexivity|]. simpl.
    rewrite Et, El, Elv, Em, length_app. simpl.
    repeat split; try assumption. lia.
  - destruct fuel; simpl;
      destruct (Nat.ltb_spec (List.length (msg (snd (popBuf l)))) msgCap);
      try (rewrite Em in *; lia); try reflexivity.
    rewrite exited_no_step by (rewrite El; exact Hl). reflexivity.
Qed.

(** X5. Once [run] has returned (as it has after [Close]), no record
    reaches the handler any more.  Enabled calls of [Output] are queued
    while the queue has room, without a write then or later; the call that
    finds the queue full never returns. *)
Theorem Output_after_exit_never_written {H : Type} (g : nat -> nat -> nat)
  (sched : scheduler) (cs : list call) (l : Logger H) :
  loop l = Exited ->
  (List.length (msg l) <= msgCap)%nat ->
  Forall (fun c => enabled_call (level l) c = true) cs ->
  ((List.length (msg l) + List.length cs <= msgCap)%nat ->
   forall fuel,
   exists l',
     Output_all g fuel sched cs l = Ok l'
     /\ trace l' = trace l
     /\ List.length (msg l') = (List.length (msg l) + List.length cs)%nat
     /\ forall n sched', run n sched' l' = l')
  /\ ((msgCap < List.length (msg l) + List.length cs)%nat ->
      forall fuel, Output_all g fuel sched cs l = Pending).
Proof.
  intros Hl Hcap Hen. split.
  - intros Hroom fuel. revert l Hl Hcap Hen Hroom.
    induction cs as [|c rest IH]; intros l Hl Hcap Hen Hroom.
    + exists l. simpl. split; [reflexivity|]. split; [reflexivity|].
      split; [lia|]. intros n sched'. destruct n; [reflexivity|].
      simpl. now rewrite exited_no_step.
    + inversion Hen as [|? ? Hc Hrest]; subst.
      unfold enabled_call in Hc. apply Z.eqb_eq in Hc.
      simpl in Hroom.
      destruct (Output_exited g fuel sched (call_env c) (call_ln c)
                  (call_depth c) (call_level c) (call_text c) l Hl Hc)
        as [Hok _].
      destruct (Hok ltac:(lia)) as (l1 & Hout & Ht & Hl1 & Hlv & Hm).
      cbn [Output_all]. rewrite Hout.
      destruct (IH l1 Hl1 ltac:(lia) ltac:(now rewrite Hlv) ltac:(lia))
        as (l' & Hall & Ht' & Hm' & Hrun).
      exists l'. split; [exact Hall|]. split; [congruence|].
      split; [simpl; lia | exact Hrun].
  - intros Hfull fuel. revert l Hl Hcap Hen Hfull.
    induction cs as [|c rest IH]; intros l Hl Hcap Hen Hfull.
    + simpl in Hfull. lia.
    + inversion Hen as [|? ? Hc Hrest]; subst.
      unfold enabled_call in Hc. apply Z.eqb_eq in Hc.
      simpl in Hfull. cbn [Output_all].
      destruct (Output_exited g fuel sched (call_env c) (call_ln c)
                  (call_depth c) (call_level c) (call_text c) l Hl Hc)
        as [Hok Hblock].
      destruct (Nat.lt_ge_cases (List.length (msg l)) msgCap) as [Hlt|Hge].
      * destruct (Hok Hlt) as (l1 & Hout & Ht & Hl1 & Hlv & Hm).
        rewrite Hout.
        apply IH; [assumption | lia | now rewrite Hlv | lia].
      * now rewrite (Hblock Hge).
Qed.

(** X6. Changing the level does not touch what has been accepted: the
    buffers owed to the handler before [SetLevel] are all written
    afterwards, whatever the new level, and [Level] returns the level
    set. *)
Theorem SetLevel_keeps_accepted_records {H : Type} (v : LogLever)
  (l : Logger H) :
  running l ->
  Level (SetLevel v l) = v
  /\ running (SetLevel v l)
  /\ msg (SetLevel v l) = msg l /\ bufs (SetLevel v l) = bufs l
  /\ forall n sched, (steps_left l <= n)%nat ->
       writes (trace (run n sched (SetLevel v l)))
       = writes (trace l) ++ map bytes (pending l).
Proof.
  intros Hr. split; [reflexivity|].
  assert (Hr' : running (SetLevel v l)) by exact Hr.
  split; [exact Hr'|]. split; [reflexivity|]. split; [reflexivity|].
  intros n sched Hn.
  pose proof Hr' as (_ & Hq & _ & Hl & _).
  destruct (run_settles n sched (SetLevel v l) Hq Hl Hn) as (A & _).
  exact A.
Qed.

(** ** The end of a record *)

Lemma last_char_split (s : string) (c : ascii) :
  last_char s = Some c -> exists p, s = (p ++ String c "")%string.
Proof.
  induction s as [|a s IH]; [discriminate|].
  destruct s as [|b s].
  - intros E. injection E as ->. now exists "".
  - intros E. change (last_char (String a (String b s)))
      with (last_char (String b s)) in E.
    destruct (IH E) as [p Hp]. exists (String a p). simpl. now rewrite <- Hp.
Qed.

Lemma closing_newline_ends (s : string) :
  exists p, (s ++ closing_newline s)%string = (p ++ String LF "")%string.
Proof.
  unfold closing_newline.
  destruct (last_char s) as [c|] eqn:E.
  - destruct (Ascii.eqb_spec c LF) as [->|_].
    + destruct (last_char_split s LF E) as [p Hp]. exists p.
      now rewrite string_app_empty_r.
    + now exists s.
  - now exists s.
Qed.

Lemma spec_record_line_head {H} (e : Env) (l : Logger H) callDepth lv :
  exists h, forall s, spec_record_line e l callDepth lv s = (h ++ s)%string.
Proof.
  exists (TimeNow e ++ " - "
          ++ colorStart l lv ++ levelName lv ++ colorStop l lv ++ " - "
          ++ fst (call_site e callDepth) ++ ":["
          ++ FormatInt (snd (call_site e callDepth)) ++ "] - ")%string.
  intros s. unfold spec_record_line. string_assoc. reflexivity.
Qed.

(** X7. A record rendered with [ln = false], as [Debug], [Info], [Warn]
    and [Error] do, always ends in a newline byte, and when the message
    already ends in one the record ends with the message itself.  With
    [ln = true] and a message that ends in a newline the record does not:
    it ends with that newline followed by [ESC[K]. *)
Theorem record_ends_with_newline {H : Type} (g : nat -> nat -> nat)
  (e : Env) (l : Logger H) (callDepth : Z) (lv : LogLever) (s : string)
  (buf : slice) :
  (exists p, bytes (render g e l false callDepth lv s buf) = p ++ [x0a])
  /\ (last_char s = Some LF ->
      (exists p, bytes (render g e l false callDepth lv s buf)
                 = p ++ list_byte_of_string s)
      /\ exists p, bytes (render g e l true callDepth lv s buf)
                   = p ++ [x0a] ++ list_byte_of_string (String ESC "[K")).
Proof.
  destruct (spec_record_line_head e l callDepth lv) as [h Hh].
  rewrite !render_bytes, !record_text_layout.
  unfold spec_record_text. rewrite Hh.
  split.
  - destruct (closing_newline_ends s) as [p Hp].
    rewrite string_app_assoc, Hp, <- string_app_assoc.
    rewrite list_byte_of_string_app.
    exists (bytes buf ++ list_byte_of_string (h ++ p)).
    now rewrite <- app_assoc.
  - intros Hlast.
    assert (Hnl : closing_newline s = "").
    { unfold closing_newline. now rewrite Hlast. }
    rewrite Hnl. split.
    + rewrite string_app_empty_r, list_byte_of_string_app.
      exists (bytes buf ++ list_byte_of_string h).
      now rewrite <- app_assoc.
    + destruct (last_char_split s LF Hlast) as [p Hp].
      rewrite Hp, string_app_empty_r.
      generalize (String ESC "[1A") (String ESC "[K"). intros a k.
      rewrite !list_byte_of_string_app.
      exists (bytes buf ++ list_byte_of_string a ++ list_byte_of_string h
              ++ list_byte_of_string p).
      rewrite <- !app_assoc. reflexivity.
Qed.

(** ** Colours *)

(** X8. Whatever the severity, the colour codes come in pairs: either both
    are empty or the start code is followed by the reset code [NONE].  A
    label is coloured only for the severities Info, Warn and Error
    themselves, and then it is their name; a severity with several bits
    set gets a plain label. *)
Theorem color_codes_come_in_pairs {H : Type} (l : Logger H)
  (lv : LogLever) :
  (colorStart l lv = "" /\ colorStop l lv = "")
  \/ (colorStop l lv = NONE
      /\ ((lv = LevelInfo /\ colorStart l lv = GREEN
           /\ levelName lv = "INFO")
          \/ (lv = LevelWarn /\ colorStart l lv = YELLOW
              /\ levelName lv = "WARN")
          \/ (lv = LevelError /\ colorStart l lv = RED
              /\ levelName lv = "ERROR"))).
Proof.
  unfold colorStart, colorStop.
  destruct (Z.eqb_spec lv LevelDebug) as [->|_]; [left; now split|].
  destruct (Z.eqb_spec lv LevelInfo) as [->|_].
  { right. split; [reflexivity|]. left. repeat split. }
  destruct (Z.eqb_spec lv LevelWarn) as [->|_].
  { right. split; [reflexivity|]. right. left. repeat split. }
  destruct (Z.eqb_spec lv LevelError) as [->|_].
  { right. split; [reflexivity|]. right. right. repeat split. }
  left. now split.
Qed.

(** ** Replacing the default logger *)

(** X9. When the rotating handler can be made, or no file is named,
    [SetLogFile] first closes the default logger, so that all it was owed
    is written, and then installs a new logger: on the standard handler
    for an empty name, on the rotating handler otherwise.  The new logger
    starts at [LevelInfo] whatever level the old one had, and nothing is
    printed.  With a fair select the call returns. *)
Theorem SetLogFile_installs_fresh_logger {H : Type}
  (ctor : string -> Z -> Z -> H + string) (std : H) (whenDay : Z)
  (sched : scheduler) (logFile : string) (l : Logger H)
  (out : list string) :
  running l ->
  (logFile <> "" -> exists h, ctor logFile whenDay 1 = inl h) ->
  (forall fuel w',
      SetLogFile ctor std whenDay fuel sched logFile (mkWorld (Some l) out)
      = Ok w' ->
      (exists l1,
          Close fuel sched l = Ok l1
          /\ writes (trace l1) = writes (trace l) ++ map bytes (pending l))
      /\ (logFile = "" -> defLoger w' = Some (New std))
      /\ (forall h, logFile <> "" -> ctor logFile whenDay 1 = inl h ->
                    defLoger w' = Some (New h))
      /\ GetLevel w' = Ok LevelInfo
      /\ stdout w' = out)
  /\ (fair sched ->
      exists fuel0 w',
        forall fuel, (fuel0 <= fuel)%nat ->
          SetLogFile ctor std whenDay fuel sched logFile
                     (mkWorld (Some l) out) = Ok w').
Proof.
  intros Hr Hctor. split.
  - intros fuel w'. unfold SetLogFile. simpl.
    destruct (Close fuel sched l) as [l1| |] eqn:Hc; try discriminate.
    pose proof (Close_sound fuel sched l l1 Hr Hc) as Hsd.
    destruct (shut_down_counts l l1 Hsd) as (_ & _ & Hw).
    destruct logFile as [|c rest].
    + simpl. intros Hs. injection Hs as <-.
      split; [exists l1; now split|].
      split; [reflexivity|].
      split; [intros h Hne; now contradiction Hne|]. now split.
    + destruct (Hctor ltac:(discriminate)) as [h Hh].
      simpl. rewrite Hh. intros Hs. injection Hs as <-.
      split; [exists l1; now split|].
      split; [discriminate|].
      split; [intros h' _ E; injection E as E'; now subst|].
      now split.
  - intros Hf. destruct (Close_returns sched l Hr Hf) as (fuel0 & l1 & Hret).
    exists fuel0.
    destruct logFile as [|c rest].
    + eexists. intros fuel Hle. unfold SetLogFile. simpl.
      rewrite (Hret fuel Hle). reflexivity.
    + destruct (Hctor ltac:(discriminate)) as [h Hh].
      eexists. intros fuel Hle. unfold SetLogFile. simpl.
      rewrite (Hret fuel Hle), Hh. reflexivity.
Qed.

(** ** What holds as long as the logger is in use *)

Lemma run_step_trace {H} (pick : choice) (l l' : Logger H) :
  run_step pick l = Some l' ->
  exists ps, trace l' = trace l ++ map HandlerWrite ps.
Proof.
  unfold run_step. intros Hs.
  assert (Hq : trace (quit_case l) = trace l).
  { unfold quit_case. now destruct (List.length (msg l) =? 0)%nat. }
  destruct (loop l) as [|m|m|].
  - destruct (msg l) as [|m rest];
      destruct (quit l); try discriminate; try destruct pick;
      injection Hs as <-; exists []; simpl; rewrite ?app_nil_r;
      (exact Hq || reflexivity).
  - injection Hs as <-. now exists [bytes m].
  - injection Hs as <-. exists []. simpl. rewrite app_nil_r.
    now destruct (putBuf_fields l m) as (_ & _ & _ & _ & Ht).
  - discriminate.
Qed.

Lemma chan_send_trace {H} (fuel : nat) :
  forall (sched : scheduler) buf (l l' : Logger H),
  chan_send fuel sched buf l = Ok l' ->
  exists ps, trace l' = trace l ++ map HandlerWrite ps.
Proof.
  induction fuel as [|fuel IH]; intros sched buf l l' Hs;
    cbn [chan_send] in Hs;
    destruct (List.length (msg l) <? msgCap)%nat;
    try discriminate;
    try (injection Hs as <-; exists []; simpl; now rewrite app_nil_r).
  destruct (run_step (sched O) l) as [l1|] eqn:Hstep; [|discriminate].
  destruct (run_step_trace _ _ _ Hstep) as [ps Hps].
  destruct (IH _ _ _ _ Hs) as [qs Hqs].
  exists (ps ++ qs). now rewrite Hqs, Hps, map_app, app_assoc.
Qed.

Lemma only_writes_app (t : list event) (ps : list (list byte)) :
  Forall (fun ev => exists p, ev = HandlerWrite p) t ->
  Forall (fun ev => exists p, ev = HandlerWrite p)
         (t ++ map HandlerWrite ps).
Proof.
  intros Ht. apply Forall_app. split; [exact Ht|].
  induction ps as [|p ps IH]; constructor; [now exists p | exact IH].
Qed.

(** X10. In every state a logger goes through between [New] and [Close],
    through calls of [Output] and [SetLevel] and steps of [run]: the logger
    is not marked closed, the quit channel is open, [run] has not
    returned, the queue holds at most 1024 buffers, the pool at most 16,
    all of length zero, and nothing but writes has been done to the
    handler. *)
Theorem reachable_invariants {H : Type} (g : nat -> nat -> nat)
  (l : Logger H) :
  reachable g l ->
  closed l = false /\ quit l = ChanOpen /\ loop l <> Exited
  /\ (List.length (msg l) <= 1024)%nat
  /\ (List.length (bufs l) <= 16)%nat
  /\ Forall (fun b => bytes b = []) (bufs l)
  /\ Forall (fun ev => exists p, ev = HandlerWrite p) (trace l).
Proof.
  intros Hreach.
  destruct (reachable_running_pool_ok g l Hreach)
    as ((Hc & Hq & _ & Hl & Hcap) & Hlen & Hzero).
  repeat (split; [assumption|]).
  clear - Hreach.
  induction Hreach as [h | pick l l' _ IH Hs
                      | fuel sched e ln callDepth lv s l l' _ IH Ho
                      | v l _ IH].
  - constructor.
  - destruct (run_step_trace _ _ _ Hs) as [ps ->].
    now apply only_writes_app.
  - destruct (Z.eq_dec (Z.land (level l) lv) lv) as [He|Hne].
    + rewrite Output_enabled in Ho by assumption.
      destruct (chan_send_trace _ _ _ _ _ Ho) as [ps Hps].
      destruct (popBuf_fields l) as (_ & _ & _ & _ & Et).
      rewrite Hps, Et. now apply only_writes_app.
    + rewrite Output_filtered in Ho by assumption. now injection Ho as <-.
  - exact IH.
Qed.

(** ** Shortening a path *)

Lemma get_beyond (s : string) (k : nat) :
  (String.length s <= k)%nat -> String.get k s = None.
Proof.
  revert k. induction s as [|c s IH]; intros k Hk; [reflexivity|].
  destruct k as [|k]; simpl in *; [lia | apply IH; lia].
Qed.

Lemma substring_split (n : nat) : forall s : string,
  (substring 0 n s ++ substring n (String.length s - n) s)%string = s.
Proof.
  induction n as [|n IH]; intros s.
  - rewrite Nat.sub_0_r, substring_whole. now destruct s.
  - destruct s as [|c s]; [reflexivity|].
    simpl. now rewrite IH.
Qed.

(** What the loop has done when it stops: either it met no slash down to
    index 1 and kept the path, or it cut after the slash of highest
    index. *)
Lemma shorten_from_cases (file : string) (i : nat) :
  (shorten_from file i = file
   /\ forall j, (1 <= j <= i)%nat -> String.get j file <> Some "/"%char)
  \/ (exists j,
         (1 <= j <= i)%nat
         /\ String.get j file = Some "/"%char
         /\ (forall k, (j < k <= i)%nat -> String.get k file <> Some "/"%char)
         /\ shorten_from file i
            = substring (j + 1) (String.length file - (j + 1)) file).
Proof.
  induction i as [|i IH].
  - left. split; [reflexivity | intros j Hj; lia].
  - cbn [shorten_from].
    destruct (String.get (S i) file) as [c|] eqn:Hg.
    + destruct (Ascii.eqb_spec c "/"%char) as [->|Hc].
      * right. exists (S i). split; [lia|]. split; [exact Hg|].
        split; [intros k Hk; lia | reflexivity].
      * destruct IH as [[E Hno] | (j & Hj & Hs & Hno & E)].
        -- left. split; [exact E|]. intros j Hj.
           destruct (Nat.eq_dec j (S i)) as [->|Hne];
             [rewrite Hg; congruence | apply Hno; lia].
        -- right. exists j. split; [lia|]. split; [exact Hs|].
           split; [|exact E]. intros k Hk.
           destruct (Nat.eq_dec k (S i)) as [->|Hne];
             [rewrite Hg; congruence | apply Hno; lia].
    + destruct IH as [[E Hno] | (j & Hj & Hs & Hno & E)].
      * left. split; [exact E|]. intros j Hj.
        destruct (Nat.eq_dec j (S i)) as [->|Hne];
          [rewrite Hg; discriminate | apply Hno; lia].
      * right. exists j. split; [lia|]. split; [exact Hs|].
        split; [|exact E]. intros k Hk.
        destruct (Nat.eq_dec k (S i)) as [->|Hne];
          [rewrite Hg; discriminate | apply Hno; lia].
Qed.

(** X11. For every path, the shortened name is the end of the path, it
    holds no slash except possibly as its first byte, and shortening it
    again changes nothing.  A path with no slash after its first byte is
    kept whole. *)
Theorem shorten_is_slash_free_suffix (file : string) :
  (exists dir, file = (dir ++ shorten file)%string)
  /\ (forall k, (1 <= k)%nat -> String.get k (shorten file) <> Some "/"%char)
  /\ shorten (shorten file) = shorten file
  /\ ((forall k, (1 <= k)%nat -> String.get k file <> Some "/"%char) ->
      shorten file = file).
Proof.
  assert (Hkeep : forall f,
             (forall k, (1 <= k)%nat -> String.get k f <> Some "/"%char) ->
             shorten f = f).
  { intros f Hno. unfold shorten. apply shorten_from_none.
    intros j Hj. apply Hno. lia. }
  destruct (shorten_from_cases file (String.length file - 1))
    as [[E Hno] | (j & Hj & Hs & Hno & E)];
    fold (shorten file) in E; rewrite !E.
  - assert (Hall : forall k, (1 <= k)%nat ->
                             String.get k file <> Some "/"%char).
    { intros k Hk.
      destruct (Nat.le_gt_cases k (String.length file - 1)) as [Hle|Hgt];
        [apply Hno; lia|].
      rewrite get_beyond by lia. discriminate. }
    split; [now exists ""|]. split; [exact Hall|].
    split; [reflexivity | intros _; reflexivity].
  - set (base := substring (j + 1) (String.length file - (j + 1)) file).
    assert (Hbase : forall k, String.get k base <> Some "/"%char).
    { intros k. unfold base.
      destruct (Nat.lt_ge_cases k (String.length file - (j + 1)))
        as [Hlt|Hge].
      - rewrite substring_correct1 by exact Hlt. apply Hno. lia.
      - rewrite substring_correct2 by exact Hge. discriminate. }
    split.
    + exists (substring 0 (j + 1) file). unfold base.
      now rewrite substring_split.
    + split; [intros k _; apply Hbase|].
      split; [apply Hkeep; intros k _; apply Hbase|].
      intros Hall. exfalso. apply (Hall j); [lia | exact Hs].
Qed.

(** ** The call site in a record *)

(** X12. When the stack cannot be resolved, an enabled [Output] on a
    logger whose pool is in order still sends a record, and its call site
    reads [???:[0]]. *)
Theorem Output_unresolved_call_site {H : Type} (g : nat -> nat -> nat)
  (fuel : nat) (sched : scheduler) (e : Env) (ln : bool) (callDepth : Z)
  (lv : LogLever) (s : string) (l : Logger H) :
  Caller e callDepth = None ->
  pool_ok l ->
  Z.land (level l) lv = lv ->
  exists record : slice,
    Output g fuel sched e ln callDepth lv s l
    = chan_send fuel sched record (snd (popBuf l))
    /\ bytes record
       = list_byte_of_string
           ((if ln then String ESC "[1A" else "")
            ++ TimeNow e ++ " - "
            ++ colorStart l lv ++ levelName lv ++ colorStop l lv
            ++ " - ???:[0] - " ++ s
            ++ (if ln then String ESC "[K" else "")
            ++ closing_newline s).
Proof.
  intros Hc Hok He.
  exists (render g e (snd (popBuf l)) ln callDepth lv s (fst (popBuf l))).
  split; [now apply Output_enabled|].
  rewrite render_bytes, popBuf_zero_length by assumption.
  cbn [app]. unfold record_text.
  rewrite (call_site_unresolved e callDepth Hc). cbn [fst snd].
  reflexivity.
Qed.

(** X13. When the stack resolves to a path with a directory part, that
    is a path [dir/base] with [dir] not empty and no slash in [base], an
    enabled [Output] on a logger whose pool is in order sends a record
    whose call site reads [base:[line]]. *)
Theorem Output_call_site_final_segment {H : Type} (g : nat -> nat -> nat)
  (fuel : nat) (sched : scheduler) (e : Env) (ln : bool) (callDepth : Z)
  (lv : LogLever) (s : string) (l : Logger H)
  (dir base : string) (line : Z) :
  Caller e callDepth = Some ((dir ++ String "/" base)%string, line) ->
  dir <> "" ->
  (forall i, String.get i base <> Some "/"%char) ->
  pool_ok l ->
  Z.land (level l) lv = lv ->
  call_site e callDepth = (base, line)
  /\ exists record : slice,
       Output g fuel sched e ln callDepth lv s l
       = chan_send fuel sched record (snd (popBuf l))
       /\ bytes record
          = list_byte_of_string
              ((if ln then String ESC "[1A" else "")
               ++ TimeNow e ++ " - "
               ++ colorStart l lv ++ levelName lv ++ colorStop l lv
               ++ " - " ++ base ++ ":[" ++ FormatInt line ++ "] - " ++ s
               ++ (if ln then String ESC "[K" else "")
               ++ closing_newline s).
Proof.
  intros Hc Hdir Hbase Hok He.
  assert (Hsite : call_site e callDepth = (base, line)).
  { unfold call_site. rewrite Hc. now rewrite shorten_final_segment. }
  split; [exact Hsite|].
  exists (render g e (snd (popBuf l)) ln callDepth lv s (fst (popBuf l))).
  split; [now apply Output_enabled|].
  rewrite render_bytes, popBuf_zero_length by assumption.
  cbn [app]. unfold record_text. rewrite Hsite. reflexivity.
Qed.

(** ** The size of the pool *)

Lemma run_step_recycles {H} (pick : choice) (l l' : Logger H) :
  quit l = ChanOpen ->
  run_step pick l = Some l' ->
  Nat.min maxBufPoolSize (List.length (bufs l') + to_recycle l')
  = Nat.min maxBufPoolSize (List.length (bufs l) + to_recycle l).
Proof.
  unfold run_step, to_recycle. intros Hq Hs. rewrite Hq in Hs.
  destruct (loop l) as [|m|m|] eqn:Hpc.
  - destruct (msg l) as [|m rest]; [discriminate|].
    injection Hs as <-. f_equal. simpl. lia.
  - injection Hs as <-. reflexivity.
  - injection Hs as <-.
    destruct (putBuf_fields l m) as (_ & Hm & _).
    cbn [loop msg bufs set_loop]. rewrite Hm. unfold putBuf.
    destruct (Nat.ltb_spec (List.length (bufs l)) maxBufPoolSize)
      as [Hlt|Hge].
    + cbn [bufs set_bufs]. rewrite length_app. f_equal. simpl. lia.
    + unfold maxBufPoolSize in *. lia.
  - discriminate.
Qed.

(** X14. The pool is a cache of bounded size: once [run] has written and
    put back all the buffers it had, the pool holds the buffers it held
    before and the recycled ones, up to 16; the buffers beyond 16 have
    been dropped. *)
Theorem pool_size_after_recycling {H : Type} (n : nat) (sched : scheduler)
  (l : Logger H) :
  running l ->
  pool_ok l ->
  (steps_left l <= n)%nat ->
  List.length (bufs (run n sched l))
  = Nat.min 16 (List.length (bufs l) + to_recycle l)
  /\ pool_ok (run n sched l)
  /\ msg (run n sched l) = [] /\ loop (run n sched l) = AtSelect.
Proof.
  revert sched l. induction n as [|n IH]; intros sched l Hr Hp Hn.
  - pose proof Hr as (_ & Hq & _ & Hl & _).
    pose proof (run_step_progress PickMsg l Hq Hl) as Hprog.
    destruct (run_step PickMsg l) as [l1|]; [lia|].
    destruct Hprog as [Hz Hpend].
    assert (Hloop : loop l = AtSelect /\ msg l = []).
    { unfold steps_left in Hz. unfold pending in Hpend.
      destruct (loop l); try lia; try discriminate; try congruence.
      now split. }
    destruct Hloop as [Hpc Hm].
    cbn [run]. unfold to_recycle. rewrite Hpc, Hm. cbn [List.length].
    destruct Hp as [Hlen Hzero]. unfold maxBufPoolSize in Hlen.
    split; [lia|]. split; [now split|]. now split.
  - pose proof Hr as (_ & Hq & _ & Hl & _).
    cbn [run].
    pose proof (run_step_progress (sched O) l Hq Hl) as Hprog.
    destruct (run_step (sched O) l) as [l1|] eqn:Hs.
    + destruct (run_step_keeps _ _ _ Hs) as (_ & _ & Hp1).
      pose proof (run_step_running _ _ _ Hs Hr) as Hr1.
      destruct (IH (sched_tl sched) l1 Hr1 (Hp1 Hp) ltac:(lia))
        as (A & B & C & D).
      split; [|split; [exact B | split; [exact C | exact D]]].
      rewrite A. apply (run_step_recycles _ _ _ Hq Hs).
    + destruct Hprog as [Hz Hpend].
      assert (Hloop : loop l = AtSelect /\ msg l = []).
      { unfold steps_left in Hz. unfold pending in Hpend.
        destruct (loop l); try lia; try discriminate; try congruence.
        now split. }
      destruct Hloop as [Hpc Hm].
      unfold to_recycle. rewrite Hpc, Hm. cbn [List.length].
      destruct Hp as [Hlen Hzero]. unfold maxBufPoolSize in Hlen.
      split; [lia|]. split; [now split|]. now split.
Qed.

(** ** A full queue *)

Lemma chan_send_last {H} (fuel : nat) :
  forall (sched : scheduler) buf (l l' : Logger H),
  chan_send fuel sched buf l = Ok l' ->
  exists q, msg l' = q ++ [buf].
Proof.
  induction fuel as [|fuel IH]; intros sched buf l l' Hs;
    cbn [chan_send] in Hs;
    destruct (List.length (msg l) <? msgCap)%nat;
    try discriminate;
    try (injection Hs as <-; now exists (msg l)).
  destruct (run_step (sched O) l) as [l1|]; [|discriminate].
  now apply (IH _ _ _ _ Hs).
Qed.

(** X15. An enabled [Output] that finds the queue full cannot return
    before [run] has taken a buffer out: without a step of [run] it is
    still waiting.  When it returns, its record is the last buffer of the
    queue and the queue holds no more than its capacity: nothing has been
    dropped to make room. *)
Theorem Output_waits_on_full_queue {H : Type} (g : nat -> nat -> nat)
  (sched : scheduler) (e : Env) (ln : bool) (callDepth : Z)
  (lv : LogLever) (s : string) (l : Logger H) :
  running l ->
  List.length (msg l) = msgCap ->
  Z.land (level l) lv = lv ->
  Output g 0 sched e ln callDepth lv s l = Pending
  /\ forall fuel, (3 <= fuel)%nat ->
       exists l' q,
         Output g fuel sched e ln callDepth lv s l = Ok l'
         /\ msg l' = q ++ [render g e l ln callDepth lv s (fst (popBuf l))]
         /\ (List.length (msg l') <= msgCap)%nat
         /\ writes (trace l') ++ map bytes (pending l')
            = (writes (trace l) ++ map bytes (pending l))
              ++ [bytes (render g e l ln callDepth lv s (fst (popBuf l)))].
Proof.
  intros Hr Hfull He.
  destruct (popBuf_fields l) as (_ & Em & _).
  split.
  - rewrite Output_enabled by assumption. simpl.
    destruct (Nat.ltb_spec (List.length (msg (snd (popBuf l)))) msgCap);
      [rewrite Em in *; lia | reflexivity].
  - intros fuel Hfuel.
    destruct (Output_running g fuel sched e ln callDepth lv s l Hr He Hfuel)
      as (l' & Hout & Htl & _ & Hr' & _).
    pose proof Hout as Hsend. rewrite Output_enabled in Hsend by assumption.
    destruct (chan_send_last _ _ _ _ _ Hsend) as [q Hq].
    exists l', q. split; [exact Hout|]. split; [exact Hq|].
    split; [now destruct Hr' as (_ & _ & _ & _ & Hcap) | exact Htl].
Qed.

(** * Properties of the string set *)

Lemma entries_get_set_same (m : list (string * bool)) (k : string)
  (v : bool) : entries_get (entries_set m k v) k = Some v.
Proof.
  induction m as [|[k' v'] m IH]; simpl.
  - now rewrite String.eqb_refl.
  - destruct (String.eqb k' k) eqn:E; simpl; now rewrite E.
Qed.

Lemma entries_get_set_other (m : list (string * bool)) (k k2 : string)
  (v : bool) :
  k2 <> k -> entries_get (entries_set m k v) k2 = entries_get m k2.
Proof.
  intros Hne. induction m as [|[k' v'] m IH]; simpl.
  - destruct (String.eqb_spec k k2); [congruence | reflexivity].
  - destruct (String.eqb_spec k' k) as [->|Hk]; simpl.
    + destruct (String.eqb_spec k k2); [congruence | reflexivity].
    + destruct (String.eqb k' k2); [reflexivity | exact IH].
Qed.

Lemma entries_set_length (m : list (string * bool)) (k : string)
  (v : bool) :
  List.length (entries_set m k v)
  = match entries_get m k with
    | Some _ => List.length m
    | None => S (List.length m)
    end.
Proof.
  induction m as [|[k' v'] m IH]; simpl; [reflexivity|].
  destruct (String.eqb k' k); simpl; [reflexivity|].
  rewrite IH. now destruct (entries_get m k).
Qed.

Lemma entries_set_twice (m : list (string * bool)) (k : string)
  (v : bool) : entries_set (entries_set m k v) k v = entries_set m k v.
Proof.
  induction m as [|[k' v'] m IH]; simpl.
  - now rewrite String.eqb_refl.
  - destruct (String.eqb k' k) eqn:E; simpl; rewrite E;
      [reflexivity | now rewrite IH].
Qed.

(** X16. On the nil set [Add] panics, while [Has] and [Count] read it as
    empty.  On any other set [Add] returns, and afterwards [Has] is true
    for the string added and answers for every other string as before, so
    that no member is ever lost; adding the same string again changes
    nothing. *)
Theorem Add_then_Has (str : string) :
  (Add str None = Panic /\ Has str None = false /\ Count None = 0)
  /\ forall m : list (string * bool),
       exists s',
         Add str (Some m) = Ok s'
         /\ Has str s' = true
         /\ (forall other, other <> str ->
                           Has other s' = Has other (Some m))
         /\ (forall x, Has x (Some m) = true -> Has x s' = true)
         /\ Add str s' = Ok s'.
Proof.
  split; [repeat split|]. intros m.
  exists (Some (entries_set m str true)).
  split; [reflexivity|].
  assert (Hsame : Has str (Some (entries_set m str true)) = true).
  { unfold Has. now rewrite entries_get_set_same. }
  assert (Hother : forall other, other <> str ->
             Has other (Some (entries_set m str true))
             = Has other (Some m)).
  { intros other Hne. unfold Has. now rewrite entries_get_set_other. }
  split; [exact Hsame|]. split; [exact Hother|].
  split.
  - intros x Hx. destruct (String.eqb_spec x str) as [->|Hne];
      [exact Hsame | now rewrite Hother].
  - unfold Add. now rewrite entries_set_twice.
Qed.

(** X17. [Add] makes [Count] grow by one when the string is not a key of
    the map and leaves it as it is otherwise; [Count] counts keys, not
    members: a key stored with [false] is counted although [Has] is
    false for it, and adding it makes it a member without changing
    [Count]. *)
Theorem Add_Count (str : string) (m : list (string * bool)) :
  exists s',
    Add str (Some m) = Ok s'
    /\ (entries_get m str = None -> Count s' = Count (Some m) + 1)
    /\ (entries_get m str <> None -> Count s' = Count (Some m))
    /\ (Has str (Some m) = true -> Count s' = Count (Some m))
    /\ (entries_get m str = Some false ->
        Has str (Some m) = false /\ Has str s' = true
        /\ Count s' = Count (Some m))
    /\ Count (Some m) <= Count s' <= Count (Some m) + 1.
Proof.
  exists (Some (entries_set m str true)).
  split; [reflexivity|].
  unfold Count, Has. rewrite entries_set_length, entries_get_set_same.
  destruct (entries_get m str) as [v|] eqn:E.
  - split; [discriminate|]. split; [reflexivity|]. split; [reflexivity|].
    split; [|lia].
    intros Hv. injection Hv as ->. repeat split.
  - split; [intros _; lia|]. split; [congruence|].
    split; [discriminate|]. split; [discriminate | lia].
Qed.

(** * Properties of the cache *)

(** ** Expiry *)

Lemma int32_of_small (z : Z) : - 2 ^ 31 <= z < 2 ^ 31 -> int32_of z = z.
Proof.
  intros Hz. unfold int32_of. rewrite Z.mod_small; lia.
Qed.

(** X18. [Set] stores the serialized value with the expiry in whole
    seconds, rounded down: an effective expiry of at least one second (and
    below 2^31 seconds) gives [SETEX] with that many seconds; a positive
    one below a second gives [SETEX] with 0 seconds; an effective expiry
    that is zero or negative gives [SET], without expiry, and so does
    [ForEverNeverExpiry] whatever the default is.  When the value cannot
    be serialized nothing is sent. *)
Theorem Set_expiry {Server Value : Type}
  (Do : string -> list arg -> Server -> (reply + error) * Server)
  (Serialize : Value -> list byte + error)
  (c : RedisCache) (key : string) (value : Value) (expires : Duration)
  (s : Server) (b : list byte) :
  Serialize value = inl b ->
  (effective_expiry c expires <= 0 ->
   Set_ Do Serialize c key value expires s
   = command_outcome (Do "SET" [AString key; ABytes b] s))
  /\ (expires = ForEverNeverExpiry ->
      Set_ Do Serialize c key value expires s
      = command_outcome (Do "SET" [AString key; ABytes b] s))
  /\ (0 < effective_expiry c expires < Second ->
      Set_ Do Serialize c key value expires s
      = command_outcome (Do "SETEX" [AString key; AInt32 0; ABytes b] s))
  /\ (Second <= effective_expiry c expires < 2 ^ 31 * Second ->
      exists secs,
        1 <= secs < 2 ^ 31
        /\ secs * Second <= effective_expiry c expires < (secs + 1) * Second
        /\ Set_ Do Serialize c key value expires s
           = command_outcome
               (Do "SETEX" [AString key; AInt32 secs; ABytes b] s))
  /\ (forall (other : Value) (err : error),
         Serialize other = inr err ->
         Set_ Do Serialize c key other expires s = (Some err, s)).
Proof.
  intros Hser.
  assert (Hunfold : forall v,
             Set_ Do Serialize c key v expires s
             = match Serialize v with
               | inr err => (Some err, s)
               | inl b' =>
                   if effective_expiry c expires >? 0
                   then command_outcome
                          (Do "SETEX"
                              [AString key;
                               AInt32 (int32_of
                                         (Z.quot (effective_expiry c expires)
                                                 Second));
                               ABytes b'] s)
                   else command_outcome
                          (Do "SET" [AString key; ABytes b'] s)
               end).
  { intros v. unfold Set_, invoke, effective_expiry, command_outcome.
    destruct (Serialize v); [|reflexivity].
    destruct (_ >? 0); reflexivity. }
  assert (Hset : effective_expiry c expires <= 0 ->
                 Set_ Do Serialize c key value expires s
                 = command_outcome (Do "SET" [AString key; ABytes b] s)).
  { intros Hle. rewrite Hunfold, Hser.
    destruct (Z.gtb_spec (effective_expiry c expires) 0); [lia | reflexivity]. }
  split; [exact Hset|].
  split.
  { intros ->. apply Hset. unfold effective_expiry. simpl. lia. }
  split.
  { intros Hsub. rewrite Hunfold, Hser.
    destruct (Z.gtb_spec (effective_expiry c expires) 0); [|lia].
    rewrite Z.quot_small by lia. reflexivity. }
  split.
  { intros Hsec. unfold Second in *.
    exists (Z.quot (effective_expiry c expires) 1000000000).
    assert (Hq : Z.quot (effective_expiry c expires) 1000000000
                 = effective_expiry c expires / 1000000000)
      by (apply Z.quot_div_nonneg; lia).
    pose proof (Z.div_mod (effective_expiry c expires) 1000000000
                  ltac:(lia)) as Hdm.
    pose proof (Z.mod_pos_bound (effective_expiry c expires) 1000000000
                  ltac:(lia)) as Hmod.
    assert (Hrange : 1 <= effective_expiry c expires / 1000000000 < 2 ^ 31).
    { split.
      - apply Z.div_le_lower_bound; lia.
      - apply Z.div_lt_upper_bound; lia. }
    rewrite Hq. split; [exact Hrange|]. split; [lia|].
    rewrite Hunfold, Hser.
    destruct (Z.gtb_spec (effective_expiry c expires) 0); [|lia].
    fold Second. unfold Second at 1. rewrite Hq.
    rewrite int32_of_small by lia. reflexivity. }
  intros other err Hother. now rewrite Hunfold, Hother.
Qed.

(** ** Counters *)

Lemma uint64_of_int64_of (z : Z) : uint64_of (int64_of z) = uint64_of z.
Proof.
  unfold uint64_of, int64_of.
  rewrite <- Zminus_mod_idemp_l.
  rewrite Z.mod_mod by lia.
  rewrite Zminus_mod_idemp_l.
  replace (z + 2 ^ 63 - 2 ^ 63) with z by lia. reflexivity.
Qed.

Lemma int64_of_add_idemp (a b : Z) :
  int64_of (a + int64_of b) = int64_of (a + b).
Proof.
  unfold int64_of. f_equal.
  replace (a + ((b + 2 ^ 63) mod 2 ^ 64 - 2 ^ 63) + 2 ^ 63)
    with (a + (b + 2 ^ 63) mod 2 ^ 64) by lia.
  rewrite Zplus_mod_idemp_r. f_equal. lia.
Qed.

(** X19. When the key holds the integer [cur] and the [SET] goes
    through, [Increment] returns [cur + delta] modulo 2^64 with no error:
    the counter wraps around at the end of the [uint64] range.  It stores
    that number as an [int64], and read back as such by the next
    [Increment] the wrap-around goes on: two increments add up. *)
Theorem Increment_wraps_around {Server : Type}
  (Do : string -> list arg -> Server -> (reply + error) * Server)
  (redis_Int64 : reply -> Z + error)
  (c : RedisCache) (key : string) (delta cur : Z) (val r : reply)
  (s s1 s2 : Server) :
  0 <= delta < 2 ^ 64 ->
  Do "GET" [AString key] s = (inl val, s1) ->
  val <> ReplyNil ->
  redis_Int64 val = inl cur ->
  Do "SET" [AString key; AInt64 (int64_of (cur + delta))] s1 = (inl r, s2) ->
  Increment Do redis_Int64 c key delta s
  = (((cur + delta) mod 2 ^ 64, None), s2)
  /\ (forall delta2,
         uint64_of (int64_of (int64_of (cur + delta) + int64_of delta2))
         = (cur + delta + delta2) mod 2 ^ 64).
Proof.
  intros Hdelta Hget Hnil Hint Hset. split.
  - unfold Increment. rewrite Hget.
    destruct val; try congruence;
      rewrite Hint, int64_of_add_idemp, Hset, uint64_of_int64_of;
      reflexivity.
  - intros delta2.
    rewrite int64_of_add_idemp, uint64_of_int64_of.
    unfold uint64_of, int64_of.
    replace ((cur + delta + 2 ^ 63) mod 2 ^ 64 - 2 ^ 63 + delta2)
      with ((cur + delta + 2 ^ 63) mod 2 ^ 64 + (delta2 - 2 ^ 63)) by lia.
    rewrite Zplus_mod_idemp_l. f_equal. lia.
Qed.

(** X20. When the key exists and holds an integer [cur] that is not
    negative, [Decrement] sends one [DECRBY] whose amount is the smaller
    of [delta] and [cur], so that a server that subtracts it is left with
    [cur - delta], or 0 when [delta] is larger; the call returns what the
    server answers.  For a negative [cur] above [delta - 2^64] the amount
    is [delta]: the value is not capped. *)
Theorem Decrement_caps_at_zero {Server : Type}
  (Do : string -> list arg -> Server -> (reply + error) * Server)
  (redis_Int64 : reply -> Z + error) (redis_Bool : reply -> bool + error)
  (c : RedisCache) (key : string) (delta cur : Z) (r1 r2 : reply)
  (s s1 s2 : Server) :
  0 <= delta < 2 ^ 64 ->
  - 2 ^ 63 <= cur < 2 ^ 63 ->
  Do "EXISTS" [AString key] s = (inl r1, s1) ->
  redis_Bool r1 = inl true ->
  Do "GET" [AString key] s1 = (inl r2, s2) ->
  redis_Int64 r2 = inl cur ->
  exists amount : arg,
    Decrement Do redis_Int64 redis_Bool c key delta s
    = (let (r3, s3) := Do "DECRBY" [AString key; amount] s2 in
       match Int64 redis_Int64 r3 with
       | inl t => ((t mod 2 ^ 64, None), s3)
       | inr err => ((0, Some err), s3)
       end)
    /\ (0 <= cur ->
        arg_number amount = Z.min delta cur
        /\ cur - arg_number amount = Z.max (cur - delta) 0)
    /\ (cur < 0 -> delta <= 2 ^ 64 + cur -> amount = AUint64 delta).
Proof.
  intros Hdelta Hcur Hex Hbool Hget Hint.
  exists (if delta >? uint64_of cur then AInt64 cur else AUint64 delta).
  split.
  - unfold Decrement, exists_. rewrite Hex. cbn [Bool]. rewrite Hbool, Hget.
    cbn [Int64]. rewrite Hint.
    destruct (Do "DECRBY" _ s2) as [r3 s3].
    destruct (Int64 redis_Int64 r3); reflexivity.
  - split.
    + intros Hpos. unfold uint64_of. rewrite Z.mod_small by lia.
      destruct (Z.gtb_spec delta cur); simpl; lia.
    + intros Hneg Hle. unfold uint64_of.
      replace (cur mod 2 ^ 64) with (2 ^ 64 + cur).
      2:{ apply Z.mod_unique with (q := -1); lia. }
      destruct (Z.gtb_spec delta (2 ^ 64 + cur)); [lia | reflexivity].
Qed.

(** ** Initialisation *)

Lemma InitRedisCache_all_inited (calls : list (string * string * Z * Duration))
  (c : RedisCache) :
  InitRedisCache_all calls (Some c)
  = (map (fun _ => Some ErrInited) calls, Some c).
Proof.
  induction calls as [|[[[host password] dbNum] expiration] rest IH];
    [reflexivity|].
  simpl. now rewrite IH.
Qed.

(** X21. The cache is initialised once: of any calls of [InitRedisCache]
    made in a row from the start, the first returns no error and makes
    the cache from its own arguments, every later one returns [ErrInited],
    and the cache stays the one the first call made.  Once a cache is
    there, every call returns [ErrInited] and leaves it as it is. *)
Theorem InitRedisCache_only_once (host password : string) (dbNum : Z)
  (expiration : Duration)
  (later : list (string * string * Z * Duration)) :
  InitRedisCache_all ((host, password, dbNum, expiration) :: later) None
  = (None :: map (fun _ => Some ErrInited) later,
     Some (newRedisCache host password dbNum expiration))
  /\ forall c : RedisCache,
       InitRedisCache_all ((host, password, dbNum, expiration) :: later)
                          (Some c)
       = (Some ErrInited :: map (fun _ => Some ErrInited) later, Some c).
Proof.
  split.
  - cbn [InitRedisCache_all InitRedisCache].
    now rewrite InitRedisCache_all_inited.
  - intros c. cbn [InitRedisCache_all InitRedisCache].
    now rewrite InitRedisCache_all_inited.
Qed.

(** ** Dialling *)

(** X22. The [Dial] of the pool hands out a connection only after the
    server has accepted [AUTH] with the password (or, without a password,
    [PING]) and then [SELECT] of the database, in this order, and that
    connection is open.  When it returns an error after connecting, the
    connection it made has been closed, and [SELECT] was not sent unless
    the first command was accepted. *)
Theorem Dial_selects_or_closes (connect : string -> option error)
  (answer : string -> list arg -> option error) (c : RedisCache) :
  let first :=
    if (0 <? String.length (pool_password c))%nat
    then ("AUTH", [AString (pool_password c)])
    else ("PING", []) in
  let select := ("SELECT", [AInt64 (pool_dbNum c)]) in
  match Dial connect answer c with
  | inl err => connect (pool_host c) = Some err
  | inr (conn, None) =>
      conn_open conn = true /\ sent conn = [first; select]
      /\ answer (fst first) (snd first) = None
      /\ answer (fst select) (snd select) = None
  | inr (conn, Some err) =>
      conn_open conn = false
      /\ ((sent conn = [first]
           /\ answer (fst first) (snd first) = Some err)
          \/ (sent conn = [first; select]
              /\ answer (fst first) (snd first) = None
              /\ answer (fst select) (snd select) = Some err))
  end.
Proof.
  cbv zeta. unfold Dial.
  destruct (connect (pool_host c)) as [err|]; [reflexivity|].
  destruct (0 <? String.length (pool_password c))%nat; cbn [conn_Do];
    match goal with
    | |- context [answer ?n ?a] => destruct (answer n a) eqn:E1
    end; cbn; try (split; [reflexivity|]; left; now split);
    match goal with
    | |- context [answer "SELECT" ?a] => destruct (answer "SELECT" a) eqn:E2
    end; cbn.
  - split; [reflexivity|]. right. repeat split; assumption.
  - repeat split; assumption.
  - split; [reflexivity|]. right. repeat split; assumption.
  - repeat split; assumption.
Qed.

(** ** The further properties on sample inputs *)

Lemma popBuf_then_putBuf_witness :
  pool_ok busy_logger
  /\ putBuf (fst (popBuf busy_logger)) (snd (popBuf busy_logger))
     = busy_logger.
Proof.
  split; [exact busy_logger_pool_ok|].
  apply (proj1 (popBuf_then_putBuf busy_logger busy_logger_pool_ok)).
  discriminate.
Defined.

Lemma Output_all_in_order_witness :
  running busy_logger /\ pool_ok busy_logger /\ (3 <= 3)%nat
  /\ exists l',
       Output_all Nat.max 3 eager sample_calls busy_logger = Ok l'
       /\ level l' = level busy_logger
       /\ forall n sched', (steps_left l' <= n)%nat ->
            writes (trace (run n sched' l'))
            = writes (trace busy_logger) ++ map bytes (pending busy_logger)
              ++ map (call_record busy_logger)
                     (filter (enabled_call (level busy_logger))
                             sample_calls).
Proof.
  split; [exact busy_logger_running|].
  split; [exact busy_logger_pool_ok|]. split; [apply le_n|].
  destruct (Output_all_in_order Nat.max 3 eager sample_calls busy_logger
              busy_logger_running busy_logger_pool_ok (le_n 3))
    as (l' & Hall & _ & _ & Hlv & Hw).
  exists l'. split; [exact Hall|]. split; [exact Hlv | exact Hw].
Defined.

Lemma shut_logger_is_closed_New :
  Close 1 eager (SetLevel LevelAll (New tt)) = Ok shut_logger.
Proof. reflexivity. Defined.

Lemma Output_after_exit_never_written_witness :
  loop shut_logger = Exited
  /\ (List.length (msg shut_logger) <= msgCap)%nat
  /\ Forall (fun c => enabled_call (level shut_logger) c = true)
            enabled_calls
  /\ forall fuel,
     exists l',
       Output_all Nat.max fuel eager enabled_calls shut_logger = Ok l'
       /\ trace l' = trace shut_logger
       /\ List.length (msg l') = 2%nat.
Proof.
  assert (Hcap : (List.length (msg shut_logger) <= msgCap)%nat).
  { unfold msgCap. simpl. lia. }
  assert (Hen : Forall (fun c => enabled_call (level shut_logger) c = true)
                       enabled_calls).
  { repeat constructor. }
  split; [reflexivity|]. split; [exact Hcap|]. split; [exact Hen|].
  intros fuel.
  destruct (Output_after_exit_never_written Nat.max eager enabled_calls
              shut_logger eq_refl Hcap Hen) as [Hroom _].
  destruct (Hroom ltac:(unfold msgCap; simpl; lia) fuel)
    as (l' & Hall & Ht & Hm & _).
  exists l'. split; [exact Hall|]. split; [exact Ht | exact Hm].
Defined.

Lemma SetLevel_keeps_accepted_records_witness :
  running busy_logger
  /\ Level (SetLevel 0 busy_logger) = 0
  /\ forall n sched, (steps_left busy_logger <= n)%nat ->
       writes (trace (run n sched (SetLevel 0 busy_logger)))
       = writes (trace busy_logger) ++ map bytes (pending busy_logger).
Proof.
  split; [exact busy_logger_running|].
  destruct (SetLevel_keeps_accepted_records 0 busy_logger
              busy_logger_running) as (Hlv & _ & _ & _ & Hw).
  split; [exact Hlv | exact Hw].
Defined.

Lemma SetLogFile_installs_fresh_logger_witness :
  running busy_logger
  /\ ("app.log" <> "" ->
      exists h : unit,
        (fun (_ : string) (_ _ : Z) => @inl unit string tt) "app.log" 3 1
        = inl h)
  /\ exists fuel0 w',
       forall fuel, (fuel0 <= fuel)%nat ->
         SetLogFile (fun (_ : string) (_ _ : Z) => @inl unit string tt)
                    tt 3 fuel eager "app.log"
                    (mkWorld (Some busy_logger) [])
         = Ok w'.
Proof.
  assert (Hctor : "app.log" <> "" ->
                  exists h : unit,
                    (fun (_ : string) (_ _ : Z) => @inl unit string tt)
                      "app.log" 3 1 = inl h).
  { intros _. now exists tt. }
  split; [exact busy_logger_running|]. split; [exact Hctor|].
  exact (proj2 (SetLogFile_installs_fresh_logger
                  (fun (_ : string) (_ _ : Z) => @inl unit string tt)
                  tt 3 eager "app.log" busy_logger []
                  busy_logger_running Hctor) eager_fair).
Defined.

Lemma reachable_invariants_witness :
  exists l : Logger unit,
    reachable Nat.max l
    /\ msg l <> []
    /\ closed l = false /\ quit l = ChanOpen /\ loop l <> Exited
    /\ (List.length (msg l) <= 1024)%nat
    /\ (List.length (bufs l) <= 16)%nat.
Proof.
  assert (Hout : exists l : Logger unit,
             Output Nat.max 3 eager sample_env false 2 LevelInfo "started"
                    (New tt) = Ok l /\ msg l <> []).
  { eexists. split; [reflexivity | discriminate]. }
  destruct Hout as (l & Hout & Hne).
  assert (Hreach : reachable Nat.max l).
  { eapply reach_Output; [apply (reach_New Nat.max tt) | exact Hout]. }
  exists l. split; [exact Hreach|]. split; [exact Hne|].
  destruct (reachable_invariants Nat.max l Hreach)
    as (A & B & C & D & E & _).
  repeat split; assumption.
Defined.

Lemma Output_unresolved_call_site_witness :
  Caller lost_env 2 = None
  /\ pool_ok busy_logger
  /\ Z.land (level busy_logger) LevelWarn = LevelWarn
  /\ exists record : slice,
       Output Nat.max 3 eager lost_env false 2 LevelWarn "disk full"
              busy_logger
       = chan_send 3 eager record (snd (popBuf busy_logger))
       /\ bytes record
          = list_byte_of_string
              ("2024/01/02 03:04:05 - " ++ YELLOW ++ "WARN" ++ NONE
               ++ " - ???:[0] - disk full" ++ String LF "").
Proof.
  split; [reflexivity|]. split; [exact busy_logger_pool_ok|].
  split; [reflexivity|].
  exact (Output_unresolved_call_site Nat.max 3 eager lost_env false 2
           LevelWarn "disk full" busy_logger eq_refl busy_logger_pool_ok
           eq_refl).
Defined.

Lemma main_go_has_no_slash (i : nat) :
  String.get i "main.go" <> Some "/"%char.
Proof. do 8 (destruct i as [|i]; [discriminate|]). discriminate. Defined.

Lemma Output_call_site_final_segment_witness :
  Caller sample_env 2 = Some (("/src/app" ++ String "/" "main.go")%string, 42)
  /\ "/src/app" <> ""
  /\ (forall i, String.get i "main.go" <> Some "/"%char)
  /\ pool_ok busy_logger
  /\ Z.land (level busy_logger) LevelWarn = LevelWarn
  /\ call_site sample_env 2 = ("main.go", 42).
Proof.
  split; [reflexivity|]. split; [discriminate|].
  split; [exact main_go_has_no_slash|].
  split; [exact busy_logger_pool_ok|]. split; [reflexivity|].
  exact (proj1 (Output_call_site_final_segment Nat.max 3 eager sample_env
                  false 2 LevelWarn "disk full" busy_logger
                  "/src/app" "main.go" 42 eq_refl
                  ltac:(discriminate) main_go_has_no_slash
                  busy_logger_pool_ok eq_refl)).
Defined.

Lemma pool_size_after_recycling_witness :
  running busy_logger /\ pool_ok busy_logger
  /\ (steps_left busy_logger <= 8)%nat
  /\ List.length (bufs (run 8 eager busy_logger)) = 4%nat.
Proof.
  assert (Hn : (steps_left busy_logger <= 8)%nat) by (vm_compute; lia).
  split; [exact busy_logger_running|].
  split; [exact busy_logger_pool_ok|]. split; [exact Hn|].
  exact (proj1 (pool_size_after_recycling 8 eager busy_logger
                  busy_logger_running busy_logger_pool_ok Hn)).
Defined.

Lemma full_logger_running : running full_logger.
Proof.
  unfold running. split; [reflexivity|]. split; [reflexivity|].
  split; [reflexivity|]. split; [discriminate|].
  apply Nat.eq_le_incl. apply repeat_length.
Defined.

Lemma Output_waits_on_full_queue_witness :
  running full_logger
  /\ List.length (msg full_logger) = msgCap
  /\ Z.land (level full_logger) LevelInfo = LevelInfo
  /\ Output Nat.max 0 eager sample_env false 2 LevelInfo "one more"
            full_logger = Pending
  /\ exists l',
       Output Nat.max 3 eager sample_env false 2 LevelInfo "one more"
              full_logger = Ok l'
       /\ (List.length (msg l') <= msgCap)%nat.
Proof.
  assert (Hlen : List.length (msg full_logger) = msgCap)
    by apply repeat_length.
  split; [exact full_logger_running|]. split; [exact Hlen|].
  split; [reflexivity|].
  destruct (Output_waits_on_full_queue Nat.max eager sample_env false 2
              LevelInfo "one more" full_logger full_logger_running Hlen
              eq_refl) as [Hwait Hret].
  split; [exact Hwait|].
  destruct (Hret 3%nat (le_n 3)) as (l' & q & Hout & _ & Hcap & _).
  exists l'. split; [exact Hout | exact Hcap].
Defined.

Lemma Set_expiry_witness :
  string_Serialize "v" = inl (list_byte_of_string "v")
  /\ Set_ recording_Do string_Serialize sample_cache "k" "v"
          ForEverNeverExpiry []
     = (None, [("SET", [AString "k"; ABytes (list_byte_of_string "v")])])
  /\ Set_ recording_Do string_Serialize sample_cache "k" "v"
          500000000 []
     = (None, [("SETEX", [AString "k"; AInt32 0;
                          ABytes (list_byte_of_string "v")])]).
Proof.
  split; [reflexivity|].
  destruct (Set_expiry recording_Do string_Serialize sample_cache "k" "v"
              ForEverNeverExpiry [] (list_byte_of_string "v") eq_refl)
    as (_ & Hforever & _).
  destruct (Set_expiry recording_Do string_Serialize sample_cache "k" "v"
              500000000 [] (list_byte_of_string "v") eq_refl)
    as (_ & _ & Hsub & _).
  split.
  - rewrite (Hforever eq_refl). reflexivity.
  - rewrite Hsub; [reflexivity|]. vm_compute. split; reflexivity.
Defined.

Lemma Increment_wraps_around_witness :
  0 <= 1 < 2 ^ 64
  /\ counter_Do "GET" [AString "hits"] (2 ^ 63 - 1)
     = (inl (ReplyInt (2 ^ 63 - 1)), 2 ^ 63 - 1)
  /\ ReplyInt (2 ^ 63 - 1) <> ReplyNil
  /\ counter_Int64 (ReplyInt (2 ^ 63 - 1)) = inl (2 ^ 63 - 1)
  /\ counter_Do "SET" [AString "hits"; AInt64 (int64_of (2 ^ 63 - 1 + 1))]
                (2 ^ 63 - 1)
     = (inl (ReplyString "OK"), - 2 ^ 63)
  /\ Increment counter_Do counter_Int64 sample_cache "hits" 1 (2 ^ 63 - 1)
     = ((2 ^ 63, None), - 2 ^ 63).
Proof.
  assert (Hd : 0 <= 1 < 2 ^ 64) by (split; [discriminate | reflexivity]).
  split; [exact Hd|]. split; [reflexivity|]. split; [discriminate|].
  split; [reflexivity|]. split; [reflexivity|].
  exact (proj1 (Increment_wraps_around counter_Do counter_Int64 sample_cache
                  "hits" 1 (2 ^ 63 - 1) (ReplyInt (2 ^ 63 - 1))
                  (ReplyString "OK") (2 ^ 63 - 1) (2 ^ 63 - 1) (- 2 ^ 63)
                  Hd eq_refl ltac:(discriminate) eq_refl eq_refl)).
Defined.

Lemma Decrement_caps_at_zero_witness :
  0 <= 9 < 2 ^ 64 /\ - 2 ^ 63 <= 5 < 2 ^ 63
  /\ counter_Do "EXISTS" [AString "hits"] 5 = (inl (ReplyInt 1), 5)
  /\ counter_Bool (ReplyInt 1) = inl true
  /\ counter_Do "GET" [AString "hits"] 5 = (inl (ReplyInt 5), 5)
  /\ counter_Int64 (ReplyInt 5) = inl 5
  /\ exists amount : arg,
       arg_number amount = 5
       /\ Decrement counter_Do counter_Int64 counter_Bool sample_cache
                    "hits" 9 5
          = (let (r3, s3) := counter_Do "DECRBY" [AString "hits"; amount] 5 in
             match Int64 counter_Int64 r3 with
             | inl t => ((t mod 2 ^ 64, None), s3)
             | inr err => ((0, Some err), s3)
             end).
Proof.
  assert (Hd : 0 <= 9 < 2 ^ 64) by (split; [discriminate | reflexivity]).
  assert (Hc : - 2 ^ 63 <= 5 < 2 ^ 63)
    by (split; [discriminate | reflexivity]).
  split; [exact Hd|]. split; [exact Hc|].
  split; [reflexivity|]. split; [reflexivity|].
  split; [reflexivity|]. split; [reflexivity|].
  destruct (Decrement_caps_at_zero counter_Do counter_Int64 counter_Bool
              sample_cache "hits" 9 5 (ReplyInt 1) (ReplyInt 5) 5 5 5
              Hd Hc eq_refl eq_refl eq_refl eq_refl)
    as (amount & Hdec & Hpos & _).
  exists amount. split; [|exact Hdec].
  destruct (Hpos ltac:(discriminate)) as [Hmin _]. exact Hmin.
Defined.
